(** * AVL tree of LAB 104, task 3 (avl_tree.hpp): model and verification

    The class template [avl_tree<Key, Info>] is modelled as a functional
    tree.  Raw pointers are subtrees, [nullptr] is the empty subtree, and
    every private member function that dereferences a pointer returns an
    [option]: [None] stands for the undefined behaviour of dereferencing a
    null pointer, so that a result [Some t] also says that no null pointer
    was dereferenced on the way. *)

From Stdlib Require Import ZArith List Bool Lia String Ascii Permutation.
Import ListNotations.
Local Open Scope Z_scope.

(** ** Requirements on the template parameter [Key]

    The code compares keys with [<], [>] and [==].  The three operators are
    kept apart in the model, and the laws say that together they form one
    strict total order (as they do for [int] and [std::string]). *)

Class KeyOps (Key : Type) := {
  key_lt : Key -> Key -> bool;
  key_gt : Key -> Key -> bool;
  key_eq : Key -> Key -> bool
}.

Class KeyOrder (Key : Type) `{KeyOps Key} : Prop := {
  key_eq_iff : forall a b, key_eq a b = true <-> a = b;
  key_gt_lt : forall a b, key_gt a b = key_lt b a;
  key_lt_irrefl : forall a, key_lt a a = false;
  key_lt_trans : forall a b c,
      key_lt a b = true -> key_lt b c = true -> key_lt a c = true;
  key_lt_total : forall a b,
      key_lt a b = false -> key_lt b a = false -> a = b
}.

(** ** Undefined behaviour as failure *)

Definition bind {A B : Type} (m : option A) (f : A -> option B) : option B :=
  match m with
  | Some a => f a
  | None => None
  end.

Notation "x <- m ;; k" := (bind m (fun x => k))
  (at level 61, m at next level, right associativity).

(** [a && b] of C++ where evaluating [b] may dereference a pointer: [b] is
    evaluated only when [a] holds. *)
Definition and_then (a : bool) (b : option bool) : option bool :=
  if a then b else Some false.

(** ** The node structure *)

Inductive node (Key Info : Type) : Type :=
| nullptr
| Node (key : Key) (info : Info) (left right : node Key Info) (height : Z).

Arguments nullptr {Key Info}.
Arguments Node {Key Info} key info left right height.

Section Tree.
Context {Key Info : Type} `{KeyOps Key}.

Local Abbreviation tree := (node Key Info).

(** [node(const Key& k, const Info& i)]: a fresh leaf of height 1. *)
Definition new_node (k : Key) (i : Info) : tree :=
  Node k i nullptr nullptr 1.

(** [int height(node* n) const].  The cached height is an [int]; it is
    modelled in [Z], for a tree of height [h] that satisfies the invariants
    has at least [2 ^ (h / 2) - 1] nodes ([avl_height_logarithmic] below),
    which keeps every height far inside the range of [int]. *)
Definition height (n : tree) : Z :=
  match n with
  | nullptr => 0
  | Node _ _ _ _ h => h
  end.

(** [void update_height(node* n)] *)
Definition update_height (n : tree) : option tree :=
  match n with
  | nullptr => None
  | Node k i l r _ => Some (Node k i l r (1 + Z.max (height l) (height r)))
  end.

(** [int balance_factor(node* n) const] *)
Definition balance_factor (n : tree) : option Z :=
  match n with
  | nullptr => None
  | Node _ _ l r _ => Some (height l - height r)
  end.

(** [node* rotate_right(node* y)] *)
Definition rotate_right (y : tree) : option tree :=
  match y with
  | Node yk yi (Node xk xi xl T2 xh) yr yh =>
      y' <- update_height (Node yk yi T2 yr yh) ;;
      update_height (Node xk xi xl y' xh)
  | _ => None
  end.

(** [node* rotate_left(node* x)] *)
Definition rotate_left (x : tree) : option tree :=
  match x with
  | Node xk xi xl (Node yk yi T2 yr yh) xh =>
      x' <- update_height (Node xk xi xl T2 xh) ;;
      update_height (Node yk yi x' yr yh)
  | _ => None
  end.

(** [node* rebalance(node* n)]: the four tests are taken in the order of
    the source. *)
Definition rebalance (n : tree) : option tree :=
  n <- update_height n ;;
  balance <- balance_factor n ;;
  match n with
  | nullptr => None
  | Node k i l r h =>
      c1 <- and_then (balance >? 1)
              (b <- balance_factor l ;; Some (b >=? 0)) ;;
      if c1 then rotate_right n else
      c2 <- and_then (balance <? -1)
              (b <- balance_factor r ;; Some (b <=? 0)) ;;
      if c2 then rotate_left n else
      c3 <- and_then (balance >? 1)
              (b <- balance_factor l ;; Some (b <? 0)) ;;
      if c3 then (l' <- rotate_left l ;; rotate_right (Node k i l' r h)) else
      c4 <- and_then (balance <? -1)
              (b <- balance_factor r ;; Some (b >? 0)) ;;
      if c4 then (r' <- rotate_right r ;; rotate_left (Node k i l r' h)) else
      Some n
  end.

(** [node* min_node(node* n) const]: the leftmost node.  Its caller reads
    the key and the info of the node it returns, which is what the model
    returns. *)
Fixpoint min_node (n : tree) : option (Key * Info) :=
  match n with
  | nullptr => None
  | Node k i nullptr _ _ => Some (k, i)
  | Node _ _ l _ _ => min_node l
  end.

(** [node* find(const Key& key)] and its [const] twin, which both walk
    down from the root; the result is the info of the node found. *)
Fixpoint find (current : tree) (key : Key) : option Info :=
  match current with
  | nullptr => None
  | Node k i l r _ =>
      if key_eq key k then Some i
      else if key_lt key k then find l key
      else find r key
  end.

(** [node* insert(node* n, const Key& key, const Info& info)] *)
Fixpoint insert (n : tree) (key : Key) (info : Info) : option tree :=
  match n with
  | nullptr => Some (new_node key info)
  | Node k i l r h =>
      if key_lt key k then
        l' <- insert l key info ;; rebalance (Node k i l' r h)
      else if key_gt key k then
        r' <- insert r key info ;; rebalance (Node k i l r' h)
      else Some (Node k info l r h)
  end.

(** [node* remove(node* n, const Key& key)].  With one child or none the
    node takes over the whole content of its child ([*n = *temp]) and is
    rebalanced; with two children it takes the key and info of its
    in-order successor, which is then removed from the right subtree. *)
Fixpoint remove (n : tree) (key : Key) : option tree :=
  match n with
  | nullptr => Some nullptr
  | Node k i l r h =>
      if key_lt key k then
        l' <- remove l key ;; rebalance (Node k i l' r h)
      else if key_gt key k then
        r' <- remove r key ;; rebalance (Node k i l r' h)
      else
        match l, r with
        | nullptr, nullptr => Some nullptr
        | nullptr, Node _ _ _ _ _ => rebalance r
        | Node _ _ _ _ _, nullptr => rebalance l
        | Node _ _ _ _ _, Node _ _ _ _ _ =>
            temp <- min_node r ;;
            r' <- remove r (fst temp) ;;
            rebalance (Node (fst temp) (snd temp) l r' h)
        end
  end.

(** [void to_vector(node* n, vector<pair<Key, Info>>& vec) const]: the
    in-order entries are appended to [vec]. *)
Fixpoint to_vector (n : tree) (vec : list (Key * Info)) : list (Key * Info) :=
  match n with
  | nullptr => vec
  | Node k i l r _ => to_vector r (to_vector l vec ++ [(k, i)])
  end.

(** The content of a tree: [to_vector] called on an empty vector. *)
Definition entries (n : tree) : list (Key * Info) := to_vector n [].

Definition keys (n : tree) : list Key := map fst (entries n).

End Tree.

(** ** The public interface

    An [avl_tree] object has one data member, [root]; the public member
    functions are modelled on the root pointer.  The public
    [insert(key, info)] and [remove(key)] assign [insert(root, key, info)]
    and [remove(root, key)] to [root], and the public [to_vector(vec)] is
    [to_vector(root, vec)]: they are the functions above, taken at the
    root. *)

(** The range of [int]. *)
Definition INT_MAX : Z := 2147483647.

(** [static_cast<int>] of an unsigned size: reduction modulo 2^32 into the
    range of [int]. *)
Definition static_cast_int (z : Z) : Z :=
  (z + 2147483648) mod 4294967296 - 2147483648.

Section Interface.
Context {Key Info : Type} `{KeyOps Key}.

Local Abbreviation tree := (node Key Info).

(** [Info{}], the value-initialised info. *)
Variable info_default : Info.

(** [bool search(const Key& key, Info& info) const]: the result, the
    content of the output parameter after the call, and the root after the
    call.  The output parameter is a variable of the caller's: the tree,
    which the function itself does not write to, is then as it was.  A
    caller that passes a reference to an info of this very tree (one that
    [operator[]] handed out) has that info overwritten when the key is
    found; that use is outside this model. *)
Definition search (root : tree) (key : Key) (info : Info)
  : bool * Info * tree :=
  match find root key with
  | Some i => (true, i, root)
  | None => (false, info, root)
  end.

(** An assignment through the reference [n->info] that [operator[]]
    returns, where [n] is the node that [find(key)] reaches. *)
Fixpoint assign (current : tree) (key : Key) (v : Info) : tree :=
  match current with
  | nullptr => nullptr
  | Node k i l r h =>
      if key_eq key k then Node k v l r h
      else if key_lt key k then Node k i (assign l key v) r h
      else Node k i l (assign r key v) h
  end.

(** [Info& operator[](const Key& key)]: the root after the call and the
    value read through the returned reference, which designates the info
    of the node that [find(key)] reaches in that tree.  [n->info] on a null
    [n] is undefined. *)
Definition index (root : tree) (key : Key) : option (tree * Info) :=
  match find root key with
  | Some i => Some (root, i)
  | None =>
      root' <- insert root key info_default ;;
      i <- find root' key ;;
      Some (root', i)
  end.

(** [const Info& operator[](const Key& key) const]: the value behind the
    returned reference and the root after the call.  [static Info dummy] is
    initialised once, to the default value, and is only handed out as a
    reference to const. *)
Definition index_const (root : tree) (key : Key) : Info * tree :=
  match find root key with
  | Some i => (i, root)
  | None => (info_default, root)
  end.

(** [int size() const] *)
Definition size (root : tree) : Z :=
  static_cast_int (Z.of_nat (List.length (to_vector root []))).

(** [bool empty() const] *)
Definition empty (root : tree) : bool :=
  match root with
  | nullptr => true
  | Node _ _ _ _ _ => false
  end.

(** Sequences of the two mutating operations, run from a given root. *)
Inductive operation : Type :=
| op_insert (key : Key) (info : Info)
| op_remove (key : Key).

Definition apply_op (root : tree) (o : operation) : option tree :=
  match o with
  | op_insert key info => insert root key info
  | op_remove key => remove root key
  end.

Fixpoint run (ops : list operation) (root : tree) : option tree :=
  match ops with
  | [] => Some root
  | o :: rest => root' <- apply_op root o ;; run rest root'
  end.

(** ** The invariants of the data model *)

(** Strictly ascending keys: every key is below its successor. *)
Fixpoint ascending (l : list Key) : Prop :=
  match l with
  | [] => True
  | a :: rest =>
      match rest with
      | [] => True
      | b :: _ => key_lt a b = true /\ ascending rest
      end
  end.

(** The in-order traversal yields strictly ascending keys. *)
Definition bst (n : tree) : Prop := ascending (keys n).

(** Every cached height is [1 + max(height(left), height(right))]. *)
Fixpoint heights_cached (n : tree) : Prop :=
  match n with
  | nullptr => True
  | Node _ _ l r h =>
      h = 1 + Z.max (height l) (height r) /\
      heights_cached l /\ heights_cached r
  end.

(** Every balance factor is -1, 0 or 1. *)
Fixpoint balanced (n : tree) : Prop :=
  match n with
  | nullptr => True
  | Node _ _ l r _ =>
      -1 <= height l - height r <= 1 /\ balanced l /\ balanced r
  end.

(** The two height invariants in one recursion, as the proofs use them. *)
Fixpoint avl (n : tree) : Prop :=
  match n with
  | nullptr => True
  | Node _ _ l r h =>
      avl l /\ avl r /\
      h = 1 + Z.max (height l) (height r) /\
      -1 <= height l - height r <= 1
  end.

End Interface.

Arguments operation : clear implicits.

(** ** Association lists in ascending key order

    What [insert], [remove] and [find] mean on the in-order sequence of a
    tree. *)

Section AssocList.
Context {Key Info : Type} `{KeyOps Key}.

Fixpoint lookup (l : list (Key * Info)) (key : Key) : option Info :=
  match l with
  | [] => None
  | (k, i) :: rest => if key_eq key k then Some i else lookup rest key
  end.

Fixpoint ins_list (l : list (Key * Info)) (key : Key) (info : Info)
  : list (Key * Info) :=
  match l with
  | [] => [(key, info)]
  | (k, i) :: rest =>
      if key_lt key k then (key, info) :: l
      else if key_gt key k then (k, i) :: ins_list rest key info
      else (k, info) :: rest
  end.

Fixpoint del_list (l : list (Key * Info)) (key : Key) : list (Key * Info) :=
  match l with
  | [] => []
  | (k, i) :: rest =>
      if key_eq key k then rest else (k, i) :: del_list rest key
  end.

End AssocList.

(** ** Key types of the tests: [int] and [std::string] *)

#[export] Instance Z_KeyOps : KeyOps Z := {
  key_lt := Z.ltb;
  key_gt := Z.gtb;
  key_eq := Z.eqb
}.

(** [std::string] compares lexicographically, character by character as
    unsigned values, which is [String.compare]. *)
#[export] Instance string_KeyOps : KeyOps string := {
  key_lt := String.ltb;
  key_gt := fun a b => String.ltb b a;
  key_eq := String.eqb
}.

(** ** [maxinfo_selector]

    [std::sort] belongs to the C++ library and is a parameter of the model.
    The language standard promises of it what [std_sort_contract] says: for
    a comparison that is a strict weak ordering, the result is a permutation
    of the input in which no element is followed by one that compares before
    it.  The order of elements that compare equivalent is left open. *)

Definition strict_weak_order {A : Type} (comp : A -> A -> bool) : Prop :=
  (forall a, comp a a = false) /\
  (forall a b c, comp a b = true -> comp b c = true -> comp a c = true) /\
  (forall a b c, comp a b = false -> comp b a = false ->
                 comp b c = false -> comp c b = false ->
                 comp a c = false /\ comp c a = false).

(** No element is followed, at any distance, by one that compares before
    it. *)
Fixpoint sorted_by {A : Type} (comp : A -> A -> bool) (l : list A) : Prop :=
  match l with
  | [] => True
  | a :: rest => Forall (fun b => comp b a = false) rest /\ sorted_by comp rest
  end.

Definition std_sort_contract
  (sort : forall A : Type, (A -> A -> bool) -> list A -> list A) : Prop :=
  forall (A : Type) (comp : A -> A -> bool) (l : list A),
    strict_weak_order comp ->
    Permutation l (sort A comp l) /\ sorted_by comp (sort A comp l).

Section Selector.
Context {Key Info : Type}.

(** [operator>] of [Info]. *)
Variable info_gt : Info -> Info -> bool.

Variable std_sort : forall A : Type, (A -> A -> bool) -> list A -> list A.

(** The lambda given to [std::sort]: [a.second > b.second]. *)
Definition by_info_desc (a b : Key * Info) : bool := info_gt (snd a) (snd b).

(** [maxinfo_selector(const avl_tree<Key, Info>& tree, unsigned cnt)];
    [v.resize(cnt)] with [cnt] below the size keeps the first [cnt]
    elements. *)
Definition maxinfo_selector (tree : node Key Info) (cnt : nat)
  : list (Key * Info) :=
  let v := to_vector tree [] in
  let v := std_sort _ by_info_desc v in
  if (cnt <? List.length v)%nat then firstn cnt v else v.

End Selector.

(** Two sorting procedures that keep the contract of [std::sort].  Both
    insert each element into the sorted rest of the sequence: the first in
    front of the elements equivalent to it, which keeps equivalent elements
    in their order; the second behind them, which reverses their order. *)

Fixpoint insert_before {A : Type} (comp : A -> A -> bool) (x : A) (l : list A)
  : list A :=
  match l with
  | [] => [x]
  | y :: rest =>
      if comp y x then y :: insert_before comp x rest else x :: l
  end.

Fixpoint insert_behind {A : Type} (comp : A -> A -> bool) (x : A) (l : list A)
  : list A :=
  match l with
  | [] => [x]
  | y :: rest =>
      if comp x y then x :: l else y :: insert_behind comp x rest
  end.

Definition stable_insertion_sort (A : Type) (comp : A -> A -> bool)
  (l : list A) : list A :=
  fold_right (insert_before comp) [] l.

Definition reversing_insertion_sort (A : Type) (comp : A -> A -> bool)
  (l : list A) : list A :=
  fold_right (insert_behind comp) [] l.

(** ** [count_words]

    The stream [is] is the sequence of characters still to be read, named
    [stream] here. *)

Definition char_in (lo hi : N) (c : ascii) : bool :=
  (N.leb lo (N_of_ascii c) && N.leb (N_of_ascii c) hi)%bool.

(** [std::isspace], [std::isalnum] and [std::tolower] in the "C" locale, on
    a character converted to [unsigned char]. *)
Definition isspace (c : ascii) : bool :=
  (char_in 9 13 c || char_in 32 32 c)%bool.

Definition isalnum (c : ascii) : bool :=
  (char_in 48 57 c || char_in 65 90 c || char_in 97 122 c)%bool.

Definition tolower (c : ascii) : ascii :=
  if char_in 65 90 c then ascii_of_N (N_of_ascii c + 32) else c.

(** [is >> word]: leading whitespace is skipped, then characters are taken
    up to the next whitespace or the end; with no character taken the
    extraction fails. *)
Fixpoint skip_ws (stream : string) : string :=
  match stream with
  | EmptyString => EmptyString
  | String c rest => if isspace c then skip_ws rest else stream
  end.

Fixpoint take_word (stream : string) : string * string :=
  match stream with
  | EmptyString => (EmptyString, EmptyString)
  | String c rest =>
      if isspace c then (EmptyString, stream)
      else let (w, stream') := take_word rest in (String c w, stream')
  end.

Definition extract (stream : string) : option (string * string) :=
  match take_word (skip_ws stream) with
  | (EmptyString, _) => None
  | (word, stream') => Some (word, stream')
  end.

(** The inner loop: [cleaned_word] receives [tolower(c)] for every
    alphanumeric [c] of [word]. *)
Fixpoint clean (word : string) : string :=
  match word with
  | EmptyString => EmptyString
  | String c rest =>
      if isalnum c then String (tolower c) (clean rest) else clean rest
  end.

(** [x++] on an [int]: undefined at [INT_MAX]. *)
Definition int_incr (x : Z) : option Z :=
  if x <? INT_MAX then Some (x + 1) else None.

(** [word_count[cleaned_word]++]; [Info{}] is [0] for [int]. *)
Definition count_word (word_count : node string Z) (cleaned_word : string)
  : option (node string Z) :=
  p <- index 0 word_count cleaned_word ;;
  v <- int_incr (snd p) ;;
  Some (assign (fst p) cleaned_word v).

(** [while (is >> word) { ... }].  Every extraction takes at least one
    character, so as many rounds as the stream has characters are enough
    ([count_words_loop_tokens] below); [count_words] starts the loop with
    that many and never runs out of them. *)
Fixpoint count_words_loop (rounds : nat) (stream : string)
  (word_count : node string Z) : option (node string Z) :=
  match extract stream with
  | None => Some word_count
  | Some (word, stream') =>
      match rounds with
      | O => None
      | S rounds' =>
          let cleaned_word := clean word in
          word_count' <-
            (match cleaned_word with
             | EmptyString => Some word_count
             | _ => count_word word_count cleaned_word
             end) ;;
          count_words_loop rounds' stream' word_count'
      end
  end.

(** [avl_tree<std::string, int> count_words(std::istream& is)] *)
Definition count_words (stream : string) : option (node string Z) :=
  count_words_loop (String.length stream) stream nullptr.

(** The whitespace-delimited tokens of a text, read off the text itself:
    [word] is the token under way. *)
Fixpoint tokens_from (word : string) (text : string) : list string :=
  match text with
  | EmptyString =>
      match word with
      | EmptyString => []
      | _ => [word]
      end
  | String c rest =>
      if isspace c then
        match word with
        | EmptyString => tokens_from EmptyString rest
        | _ => word :: tokens_from EmptyString rest
        end
      else tokens_from (word ++ String c EmptyString) rest
  end.

Definition tokens (text : string) : list string := tokens_from EmptyString text.

(** The cleaned tokens that are not empty. *)
Definition cleaned_tokens (text : string) : list string :=
  filter (fun w => negb (String.eqb w EmptyString)) (map clean (tokens text)).

(** The body of the loop of [count_words], run over a list of tokens. *)
Fixpoint count_tokens (words : list string) (word_count : node string Z)
  : option (node string Z) :=
  match words with
  | [] => Some word_count
  | word :: rest =>
      let cleaned_word := clean word in
      word_count' <-
        (match cleaned_word with
         | EmptyString => Some word_count
         | _ => count_word word_count cleaned_word
         end) ;;
      count_tokens rest word_count'
  end.

(** How often a word occurs in a list of words, and the count that the
    tree holds for a word that occurs that often: none when it does not
    occur. *)
Definition occurrences (words : list string) (w : string) : nat :=
  count_occ string_dec words w.

Definition stored_count (n : nat) : option Z :=
  match n with
  | O => None
  | S _ => Some (Z.of_nat n)
  end.

(** The tree of [test_rotations_and_structure] after its three
    insertions, on which the general statements below are instantiated. *)
Definition rotated_tree : node Z Z :=
  Node 2 2 (Node 1 1 nullptr nullptr 1) (Node 3 3 nullptr nullptr 1) 2.

(** The number of nodes on the longest path from a node down to a null
    pointer: the height that the [height] fields cache. *)
Fixpoint depth {Key Info : Type} (n : node Key Info) : nat :=
  match n with
  | nullptr => O
  | Node _ _ l r _ => S (Nat.max (depth l) (depth r))
  end.

(** ** [print]

    [std::cout] is the text written so far; [operator<<] for keys and infos
    is a parameter of the model. *)

Section Print.
Context {Key Info : Type}.

Variable show_key : Key -> string.
Variable show_info : Info -> string.

(** [std::string(count, ' ')] *)
Definition spaces (count : nat) : string :=
  string_of_list_ascii (repeat " "%char count).

(** What one node contributes: [depth * 4] spaces, the key, " : ", the
    info and a newline. *)
Definition print_line (depth : Z) (k : Key) (i : Info) : string :=
  (spaces (Z.to_nat (depth * 4)) ++ show_key k ++ " : " ++ show_info i
   ++ String "010" EmptyString)%string.

(** [void print(node* n, int depth) const] *)
Fixpoint print (n : node Key Info) (depth : Z) (cout : string) : string :=
  match n with
  | nullptr => cout
  | Node k i l r _ =>
      let cout := print r (depth + 1) cout in
      let cout := (cout ++ print_line depth k i)%string in
      print l (depth + 1) cout
  end.

(** The entries of a tree in order, each with the depth of its node below
    a root of depth [depth]. *)
Fixpoint entries_at_depth (n : node Key Info) (depth : Z)
  : list (Z * (Key * Info)) :=
  match n with
  | nullptr => []
  | Node k i l r _ =>
      entries_at_depth l (depth + 1) ++ (depth, (k, i))
        :: entries_at_depth r (depth + 1)
  end.

End Print.

(** ** Nodes on the free store: [clone], [clear], copying and assignment

    The functions above take a tree as a value.  The functions of this
    section are about which nodes exist, so here a node lives at an
    address of the free store and holds the addresses of its children.  A
    dereference of a null pointer or of a deleted node and a second
    [delete] of a node are undefined and give [None]. *)

Definition ptr : Type := option nat.

Record cell (Key Info : Type) : Type := mk_cell {
  cell_key : Key;
  cell_info : Info;
  cell_left : ptr;
  cell_right : ptr;
  cell_height : Z
}.

Arguments mk_cell {Key Info} _ _ _ _ _.
Arguments cell_key {Key Info} _.
Arguments cell_info {Key Info} _.
Arguments cell_left {Key Info} _.
Arguments cell_right {Key Info} _.
Arguments cell_height {Key Info} _.

(** The free store: what lives at each address, if anything. *)
Definition heap (Key Info : Type) : Type := list (option (cell Key Info)).

Section FreeStore.
Context {Key Info : Type}.

Definition load (m : heap Key Info) (a : nat) : option (cell Key Info) :=
  match nth_error m a with
  | Some (Some c) => Some c
  | _ => None
  end.

Fixpoint store (m : heap Key Info) (a : nat) (c : option (cell Key Info))
  : heap Key Info :=
  match m, a with
  | [], O => [c]
  | [], S a' => None :: store [] a' c
  | _ :: rest, O => c :: rest
  | x :: rest, S a' => x :: store rest a' c
  end.

(** [operator new]: the address that the next node gets.  It is one at
    which nothing lives; an allocation that fails is not modelled. *)
Variable alloc : heap Key Info -> nat.

(** [delete n] *)
Definition delete (m : heap Key Info) (a : nat) : option (heap Key Info) :=
  match load m a with
  | Some _ => Some (store m a None)
  | None => None
  end.

(** Assignments to [new_node->left], [new_node->right] and
    [new_node->height]. *)
Definition set_left (m : heap Key Info) (a : nat) (p : ptr)
  : option (heap Key Info) :=
  c <- load m a ;;
  Some (store m a (Some (mk_cell (cell_key c) (cell_info c) p
                           (cell_right c) (cell_height c)))).

Definition set_right (m : heap Key Info) (a : nat) (p : ptr)
  : option (heap Key Info) :=
  c <- load m a ;;
  Some (store m a (Some (mk_cell (cell_key c) (cell_info c) (cell_left c)
                           p (cell_height c)))).

Definition set_height (m : heap Key Info) (a : nat) (h : Z)
  : option (heap Key Info) :=
  c <- load m a ;;
  Some (store m a (Some (mk_cell (cell_key c) (cell_info c) (cell_left c)
                           (cell_right c) h))).

(** [node* clone(node* n) const], with a bound on the depth of the
    recursion: [levels] above the depth of the tree is enough
    ([clone_copies] below). *)
Fixpoint clone (levels : nat) (m : heap Key Info) (n : ptr)
  : option (heap Key Info * ptr) :=
  match levels with
  | O => None
  | S levels' =>
      match n with
      | None => Some (m, None)
      | Some a =>
          c <- load m a ;;
          let new_node := alloc m in
          let m1 :=
            store m new_node
              (Some (mk_cell (cell_key c) (cell_info c) None None 1)) in
          c1 <- load m1 a ;;
          left_copy <- clone levels' m1 (cell_left c1) ;;
          m2 <- set_left (fst left_copy) new_node (snd left_copy) ;;
          c2 <- load m2 a ;;
          right_copy <- clone levels' m2 (cell_right c2) ;;
          m3 <- set_right (fst right_copy) new_node (snd right_copy) ;;
          c3 <- load m3 a ;;
          m4 <- set_height m3 new_node (cell_height c3) ;;
          Some (m4, Some new_node)
      end
  end.

(** [void clear(node* n)], with the same bound. *)
Fixpoint clear (levels : nat) (m : heap Key Info) (n : ptr)
  : option (heap Key Info) :=
  match levels with
  | O => None
  | S levels' =>
      match n with
      | None => Some m
      | Some a =>
          c <- load m a ;;
          m1 <- clear levels' m (cell_left c) ;;
          c1 <- load m1 a ;;
          m2 <- clear levels' m1 (cell_right c1) ;;
          delete m2 a
      end
  end.

(** An [avl_tree] object is the address at which it lives; [roots] gives
    the [root] member of the object at each address. *)
Definition set_root (roots : nat -> ptr) (object : nat) (p : ptr)
  : nat -> ptr :=
  fun o => if Nat.eqb o object then p else roots o.

(** [avl_tree(const avl_tree& src) : root(clone(src.root))], constructing
    the object at [this]. *)
Definition copy_construct (levels : nat) (m : heap Key Info)
  (roots : nat -> ptr) (this src : nat)
  : option (heap Key Info * (nat -> ptr)) :=
  copy <- clone levels m (roots src) ;;
  Some (fst copy, set_root roots this (snd copy)).

(** [void clear()]: [clear(root); root = nullptr;] *)
Definition clear_tree (levels : nat) (m : heap Key Info)
  (roots : nat -> ptr) (this : nat)
  : option (heap Key Info * (nat -> ptr)) :=
  m1 <- clear levels m (roots this) ;;
  Some (m1, set_root roots this None).

(** [~avl_tree()]: [clear(root);] *)
Definition destruct_tree (levels : nat) (m : heap Key Info)
  (roots : nat -> ptr) (this : nat) : option (heap Key Info) :=
  clear levels m (roots this).

(** [avl_tree& operator=(const avl_tree& src)] *)
Definition operator_assign (levels : nat) (m : heap Key Info)
  (roots : nat -> ptr) (this src : nat)
  : option (heap Key Info * (nat -> ptr)) :=
  if negb (Nat.eqb this src) then
    cleared <- clear_tree levels m roots this ;;
    copy <- clone levels (fst cleared) (snd cleared src) ;;
    Some (fst copy, set_root (snd cleared) this (snd copy))
  else Some (m, roots).

(** The tree [t] stands at [p] in the free store [m], on the nodes at the
    addresses [nodes], listed root first, then those of the left subtree,
    then those of the right subtree. *)
Fixpoint tree_at (m : heap Key Info) (t : node Key Info) (p : ptr)
  (nodes : list nat) : Prop :=
  match t with
  | nullptr => p = None /\ nodes = []
  | Node k i l r h =>
      exists a pl pr nl nr,
        p = Some a /\
        load m a = Some (mk_cell k i pl pr h) /\
        tree_at m l pl nl /\ tree_at m r pr nr /\
        nodes = a :: nl ++ nr
  end.

End FreeStore.

(** The allocator of the instances below: the first address past the end
    of the store. *)
Definition bump_alloc {Key Info : Type} (m : heap Key Info) : nat :=
  List.length m.

(** [rotated_tree] on the free store, and an object at address 0 whose
    root it is. *)
Definition rotated_store : heap Z Z :=
  [Some (mk_cell 2 2 (Some 1%nat) (Some 2%nat) 2);
   Some (mk_cell 1 1 None None 1);
   Some (mk_cell 3 3 None None 1)].

Definition one_object : nat -> ptr :=
  fun o => if Nat.eqb o 0 then Some 0%nat else None.

(** The tree of [test_rotations_and_structure] before the rotation that
    its third insertion triggers. *)
Definition unrotated_tree : node Z Z :=
  Node 3 3 (Node 2 2 (Node 1 1 nullptr nullptr 1) nullptr 2) nullptr 3.

(** The two mutating operations on a list of entries in ascending key
    order. *)
Definition apply_op_list {Key Info : Type} `{KeyOps Key}
  (l : list (Key * Info)) (o : operation Key Info) : list (Key * Info) :=
  match o with
  | op_insert key info => ins_list l key info
  | op_remove key => del_list l key
  end.

(** A second object at address 1, whose tree is the one node at address 3
    of the store. *)
Definition one_node_tree : node Z Z := new_node 7 7.

Definition two_trees_store : heap Z Z :=
  rotated_store ++ [Some (mk_cell 7 7 None None 1)].

Definition two_objects : nat -> ptr :=
  fun o => if Nat.eqb o 0 then Some 0%nat
           else if Nat.eqb o 1 then Some 3%nat else None.

(** A stream in which one word occurs once more than an [int] can
    count. *)
Fixpoint repeat_string (s : string) (n : nat) : string :=
  match n with
  | O => EmptyString
  | S n' => (s ++ repeat_string s n')%string
  end.

Definition overflowing_stream : string :=
  repeat_string "a " (S (Z.to_nat INT_MAX)).

(** * Verification *)

#[local] Arguments Z.add _ _ : simpl never.
#[local] Arguments Z.sub _ _ : simpl never.
#[local] Arguments Z.max _ _ : simpl never.
#[local] Arguments Z.opp _ : simpl never.

(** ** The option monad *)

Lemma bind_Some {A B : Type} (m : option A) (f : A -> option B) (b : B) :
  bind m f = Some b <-> exists a, m = Some a /\ f a = Some b.
Proof.
  destruct m as [a|]; simpl; split.
  - intros E. exists a. auto.
  - intros (a' & E & F). injection E as ->. exact F.
  - discriminate.
  - intros (a' & E & _). discriminate.
Qed.

(** ** Keys *)

Section KeyFacts.
Context {Key : Type} `{KeyOrder Key}.

Lemma key_eq_refl (a : Key) : key_eq a a = true.
Proof. apply key_eq_iff. reflexivity. Qed.

Lemma key_eq_false (a b : Key) : key_eq a b = false <-> a <> b.
Proof.
  split.
  - intros E ->. rewrite key_eq_refl in E. discriminate.
  - intros N. destruct (key_eq a b) eqn:E; [|reflexivity].
    apply key_eq_iff in E. contradiction.
Qed.

Lemma key_lt_asym (a b : Key) : key_lt a b = true -> key_lt b a = false.
Proof.
  intros L. destruct (key_lt b a) eqn:G; [|reflexivity].
  pose proof (key_lt_trans _ _ _ L G) as C.
  rewrite key_lt_irrefl in C. discriminate.
Qed.

Lemma key_lt_neq (a b : Key) : key_lt a b = true -> a <> b.
Proof. intros L ->. rewrite key_lt_irrefl in L. discriminate. Qed.

(** The three outcomes of the tests [key < k], [key > k], [key == k]. *)
Inductive key_order (a b : Key) : bool -> bool -> bool -> Prop :=
| key_below : key_lt a b = true -> a <> b -> key_order a b true false false
| key_same : a = b -> key_order a b false false true
| key_above : key_lt b a = true -> a <> b -> key_order a b false true false.

Lemma key_cases (a b : Key) :
  key_order a b (key_lt a b) (key_gt a b) (key_eq a b).
Proof.
  rewrite key_gt_lt.
  destruct (key_lt a b) eqn:L.
  - rewrite (key_lt_asym _ _ L).
    pose proof (key_lt_neq _ _ L) as N.
    rewrite (proj2 (key_eq_false a b) N). now constructor.
  - destruct (key_lt b a) eqn:G.
    + assert (N : a <> b) by (intros ->; rewrite key_lt_irrefl in G; discriminate).
      rewrite (proj2 (key_eq_false a b) N). now constructor.
    + pose proof (key_lt_total _ _ L G) as ->.
      rewrite key_eq_refl. now constructor.
Qed.

End KeyFacts.

(** ** In-order sequences *)

Section EntriesFacts.
Context {Key Info : Type}.

Lemma to_vector_app (n : node Key Info) (vec : list (Key * Info)) :
  to_vector n vec = vec ++ entries n.
Proof.
  unfold entries. revert vec.
  induction n as [|k i l IHl r IHr h]; intros vec; simpl.
  - now rewrite app_nil_r.
  - rewrite (IHr (to_vector l vec ++ [(k, i)])), (IHr (to_vector l [] ++ [(k, i)])).
    rewrite (IHl vec), (IHl []). simpl.
    now rewrite <- !app_assoc.
Qed.

Lemma entries_Node k i (l r : node Key Info) h :
  entries (Node k i l r h) = entries l ++ (k, i) :: entries r.
Proof.
  unfold entries at 1. simpl. rewrite to_vector_app, to_vector_app.
  simpl. now rewrite <- app_assoc.
Qed.

Lemma keys_Node k i (l r : node Key Info) h :
  keys (Node k i l r h) = keys l ++ k :: keys r.
Proof. unfold keys. rewrite entries_Node, map_app. reflexivity. Qed.

End EntriesFacts.

(** ** Rotations and rebalancing *)

Ltac zbool :=
  repeat match goal with
    | |- context [?a >? ?b] => rewrite (Z.gtb_ltb a b)
    | |- context [?a >=? ?b] => rewrite (Z.geb_leb a b)
    end;
  repeat match goal with
    | |- context [?a <? ?b] => destruct (Z.ltb_spec a b)
    | |- context [?a <=? ?b] => destruct (Z.leb_spec a b)
    end.

Section RebalanceFacts.
Context {Key Info : Type}.

Local Abbreviation tree := (node Key Info).

Lemma avl_height_nonneg (n : tree) : avl n -> 0 <= height n.
Proof.
  induction n as [|k i l IHl r IHr h]; simpl.
  - lia.
  - intros (Al & Ar & Eh & Bal). specialize (IHl Al). specialize (IHr Ar). lia.
Qed.

Lemma avl_height_zero (n : tree) : avl n -> height n <= 0 -> n = nullptr.
Proof.
  destruct n as [|k i l r h]; [reflexivity|]. simpl.
  intros (Al & Ar & Eh & Bal) Le.
  pose proof (avl_height_nonneg l Al). lia.
Qed.

(** The height is logarithmic in the number of nodes. *)
Lemma avl_height_logarithmic (n : tree) :
  avl n -> 2 ^ (height n / 2) <= Z.of_nat (List.length (entries n)) + 1.
Proof.
  induction n as [|k i l IHl r IHr h]; [intros _; simpl; lia|].
  intros A. pose proof A as (Al & Ar & Eh & B).
  specialize (IHl Al). specialize (IHr Ar).
  pose proof (avl_height_nonneg l Al) as Hl.
  pose proof (avl_height_nonneg r Ar) as Hr.
  rewrite entries_Node, length_app. simpl List.length. simpl height.
  set (m := Z.min (height l) (height r)).
  assert (Hm : 0 <= m) by (unfold m; lia).
  assert (Pl : 2 ^ (m / 2) <= 2 ^ (height l / 2)).
  { apply Z.pow_le_mono_r; [lia|]. apply Z.div_le_mono; unfold m; lia. }
  assert (Pr : 2 ^ (m / 2) <= 2 ^ (height r / 2)).
  { apply Z.pow_le_mono_r; [lia|]. apply Z.div_le_mono; unfold m; lia. }
  assert (Ph : 2 ^ (h / 2) <= 2 ^ (m / 2 + 1)).
  { apply Z.pow_le_mono_r; [lia|].
    replace (m / 2 + 1) with ((m + 1 * 2) / 2) by (rewrite Z.div_add; lia).
    apply Z.div_le_mono; unfold m; lia. }
  rewrite Z.pow_add_r in Ph by (try apply Z.div_pos; lia).
  lia.
Qed.

Lemma avl_split (n : tree) : avl n <-> heights_cached n /\ balanced n.
Proof.
  induction n as [|k i l IHl r IHr h]; simpl; [tauto|].
  rewrite IHl, IHr. tauto.
Qed.

Lemma rotate_right_entries (y t : tree) :
  rotate_right y = Some t -> entries t = entries y.
Proof.
  destruct y as [|yk yi [|xk xi xl T2 xh] yr yh]; simpl; try discriminate.
  intros E. injection E as <-.
  rewrite !entries_Node, <- app_assoc. reflexivity.
Qed.

Lemma rotate_left_entries (x t : tree) :
  rotate_left x = Some t -> entries t = entries x.
Proof.
  destruct x as [|xk xi xl [|yk yi T2 yr yh] xh]; simpl; try discriminate.
  intros E. injection E as <-.
  rewrite !entries_Node, <- app_assoc. reflexivity.
Qed.

(** Rebalancing never changes the in-order sequence. *)
Lemma rebalance_entries (n t : tree) :
  rebalance n = Some t -> entries t = entries n.
Proof.
  destruct n as [|k i l r h]; [discriminate|].
  unfold rebalance. cbn [update_height bind balance_factor].
  set (h' := 1 + Z.max (height l) (height r)).
  assert (E0 : entries (Node k i l r h') = entries (Node k i l r h))
    by (now rewrite !entries_Node).
  intros E.
  apply bind_Some in E. destruct E as ([|] & _ & E); cbv beta iota in E.
  { apply rotate_right_entries in E. congruence. }
  apply bind_Some in E. destruct E as ([|] & _ & E); cbv beta iota in E.
  { apply rotate_left_entries in E. congruence. }
  apply bind_Some in E. destruct E as ([|] & _ & E); cbv beta iota in E.
  { apply bind_Some in E. destruct E as (l' & El & E).
    apply rotate_right_entries in E. apply rotate_left_entries in El.
    rewrite E, !entries_Node, El. reflexivity. }
  apply bind_Some in E. destruct E as ([|] & _ & E); cbv beta iota in E.
  { apply bind_Some in E. destruct E as (r' & Er & E).
    apply rotate_left_entries in E. apply rotate_right_entries in Er.
    rewrite E, !entries_Node, Er. reflexivity. }
  injection E as <-. exact E0.
Qed.

(** A node whose subtrees are in order and differ in height by at most one
    is returned with its height brought up to date. *)
Lemma rebalance_balanced k i (l r : tree) h :
  -1 <= height l - height r <= 1 ->
  rebalance (Node k i l r h) =
  Some (Node k i l r (1 + Z.max (height l) (height r))).
Proof.
  intros B. unfold rebalance. cbn [update_height bind balance_factor].
  unfold and_then. zbool; try lia; reflexivity.
Qed.

(** Rebalancing a node whose subtrees satisfy the height invariants and
    differ in height by at most two dereferences no null pointer and
    restores the invariants; the height of the result is that of the
    higher subtree, or one more. *)
Lemma rebalance_avl k i (l r : tree) h :
  avl l -> avl r -> -2 <= height l - height r <= 2 ->
  exists t, rebalance (Node k i l r h) = Some t /\ avl t /\
            Z.max (height l) (height r) <= height t
              <= Z.max (height l) (height r) + 1 /\
            (-1 <= height l - height r <= 1 ->
             height t = 1 + Z.max (height l) (height r)).
Proof.
  intros Al Ar B.
  pose proof (avl_height_nonneg l Al) as Hl.
  pose proof (avl_height_nonneg r Ar) as Hr.
  destruct (Z_le_dec (Z.abs (height l - height r)) 1) as [Small|Big].
  - exists (Node k i l r (1 + Z.max (height l) (height r))).
    split; [apply rebalance_balanced; lia|].
    simpl. repeat split; auto; lia.
  - destruct (Z_lt_dec (height r) (height l)) as [Left|Right].
    + (* the left subtree is two higher *)
      destruct l as [|lk li ll lr lh]; [simpl in *; lia|].
      simpl in Al. destruct Al as (All & Alr & Elh & Bl).
      pose proof (avl_height_nonneg ll All) as Hll.
      pose proof (avl_height_nonneg lr Alr) as Hlr.
      simpl in B, Big, Left, Hl.
      destruct (Z_le_dec (height lr) (height ll)) as [LL|LR].
      * eexists. split.
        { unfold rebalance. cbn [update_height bind balance_factor height].
          unfold and_then. cbn [bind]. zbool; try lia. cbn. reflexivity. }
        simpl. repeat split; auto; lia.
      * destruct lr as [|bk bi bl br bh]; [simpl in *; lia|].
        simpl in Alr. destruct Alr as (Abl & Abr & Ebh & Bb).
        simpl in LR, Hlr, Elh, Bl.
        eexists. split.
        { unfold rebalance. cbn [update_height bind balance_factor height].
          unfold and_then. cbn [bind]. zbool; try lia. cbn. reflexivity. }
        simpl. repeat split; auto; lia.
    + (* the right subtree is two higher *)
      destruct r as [|rk ri rl rr rh]; [simpl in *; lia|].
      simpl in Ar. destruct Ar as (Arl & Arr & Erh & Br).
      pose proof (avl_height_nonneg rl Arl) as Hrl.
      pose proof (avl_height_nonneg rr Arr) as Hrr.
      simpl in B, Big, Right, Hr.
      destruct (Z_le_dec (height rl) (height rr)) as [RR|RL].
      * eexists. split.
        { unfold rebalance. cbn [update_height bind balance_factor height].
          unfold and_then. cbn [bind]. zbool; try lia. cbn. reflexivity. }
        simpl. repeat split; auto; lia.
      * destruct rl as [|bk bi bl br bh]; [simpl in *; lia|].
        simpl in Arl. destruct Arl as (Abl & Abr & Ebh & Bb).
        simpl in RL, Hrl, Erh, Br.
        eexists. split.
        { unfold rebalance. cbn [update_height bind balance_factor height].
          unfold and_then. cbn [bind]. zbool; try lia. cbn. reflexivity. }
        simpl. repeat split; auto; lia.
Qed.

End RebalanceFacts.

(** ** [insert] and [remove] keep the height invariants *)

Section HeightFacts.
Context {Key Info : Type} `{KeyOps Key}.

Local Abbreviation tree := (node Key Info).

(** A node that satisfies the height invariants is a fixed point of
    [rebalance]. *)
Lemma rebalance_id (n : tree) :
  avl n -> n <> nullptr -> rebalance n = Some n.
Proof.
  destruct n as [|k i l r h]; [contradiction|].
  simpl. intros (_ & _ & -> & B) _. now apply rebalance_balanced.
Qed.

Lemma min_node_Some (n : tree) :
  n <> nullptr -> exists p, min_node n = Some p.
Proof.
  induction n as [|k i l IHl r _ h]; [contradiction|]. intros _.
  destruct l as [|lk li ll lr lh]; simpl.
  - eauto.
  - apply IHl. discriminate.
Qed.

Lemma insert_avl (n : tree) (key : Key) (info : Info) :
  avl n ->
  exists t, insert n key info = Some t /\ avl t /\
            height n <= height t <= height n + 1.
Proof.
  induction n as [|k i l IHl r IHr h]; intros A.
  - exists (new_node key info). simpl. repeat split; auto; lia.
  - simpl in A. destruct A as (Al & Ar & Eh & B). simpl insert.
    pose proof (avl_height_nonneg l Al). pose proof (avl_height_nonneg r Ar).
    destruct (key_lt key k); [|destruct (key_gt key k)].
    + destruct (IHl Al) as (l' & -> & Al' & Hl'). cbn [bind].
      destruct (rebalance_avl k i l' r h Al' Ar) as (t & -> & At & Ht & Ht');
        [lia|].
      exists t. repeat split; auto; simpl; lia.
    + destruct (IHr Ar) as (r' & -> & Ar' & Hr'). cbn [bind].
      destruct (rebalance_avl k i l r' h Al Ar') as (t & -> & At & Ht & Ht');
        [lia|].
      exists t. repeat split; auto; simpl; lia.
    + exists (Node k info l r h). simpl. repeat split; auto; lia.
Qed.

Lemma remove_avl (n : tree) (key : Key) :
  avl n ->
  exists t, remove n key = Some t /\ avl t /\
            height n - 1 <= height t <= height n.
Proof.
  revert key. induction n as [|k i l IHl r IHr h]; intros key A.
  - exists nullptr. simpl. repeat split; auto; lia.
  - pose proof A as An. simpl in A. destruct A as (Al & Ar & Eh & B).
    simpl remove.
    pose proof (avl_height_nonneg l Al). pose proof (avl_height_nonneg r Ar).
    destruct (key_lt key k); [|destruct (key_gt key k)].
    + destruct (IHl key Al) as (l' & -> & Al' & Hl'). cbn [bind].
      destruct (rebalance_avl k i l' r h Al' Ar) as (t & -> & At & Ht & Ht');
        [lia|].
      exists t. repeat split; auto; simpl; lia.
    + destruct (IHr key Ar) as (r' & -> & Ar' & Hr'). cbn [bind].
      destruct (rebalance_avl k i l r' h Al Ar') as (t & -> & At & Ht & Ht');
        [lia|].
      exists t. repeat split; auto; simpl; lia.
    + destruct l as [|lk li ll lr lh], r as [|rk ri rl rr rh].
      * exists nullptr. simpl in *. repeat split; auto; lia.
      * rewrite rebalance_id by (auto; discriminate).
        eexists. split; [reflexivity|]. split; [exact Ar|].
        simpl in *. lia.
      * rewrite rebalance_id by (auto; discriminate).
        eexists. split; [reflexivity|]. split; [exact Al|].
        simpl in *. lia.
      * destruct (min_node_Some (Node rk ri rl rr rh)) as (temp & ->);
          [discriminate|]. cbn [bind].
        destruct (IHr (fst temp) Ar) as (r' & -> & Ar' & Hr'). cbn [bind].
        destruct (rebalance_avl (fst temp) (snd temp) (Node lk li ll lr lh) r' h
                    Al Ar') as (t & -> & At & Ht & Ht'); [lia|].
        exists t. repeat split; auto; simpl; lia.
Qed.

End HeightFacts.

(** ** Ascending association lists *)

Section ListFacts.
Context {Key Info : Type} `{KeyOrder Key}.

Local Abbreviation above a := (fun b : Key => key_lt a b = true).
Local Abbreviation below a := (fun b : Key => key_lt b a = true).
Local Abbreviation alist := (list (Key * Info)).

Lemma ascending_cons (a : Key) (l : list Key) :
  ascending (a :: l) <-> Forall (above a) l /\ ascending l.
Proof.
  revert a. induction l as [|b l IH]; intros a.
  - simpl. split; auto.
  - change (ascending (a :: b :: l))
      with (key_lt a b = true /\ ascending (b :: l)).
    split.
    + intros (Lab & Asc). split; [|exact Asc].
      constructor; [exact Lab|].
      apply IH in Asc. destruct Asc as (F & _).
      eapply Forall_impl; [|exact F].
      intros c Lbc. exact (key_lt_trans _ _ _ Lab Lbc).
    + intros (F & Asc). inversion F; subst. auto.
Qed.

Lemma above_trans (a b : Key) (l : list Key) :
  key_lt a b = true -> Forall (above b) l -> Forall (above a) l.
Proof.
  intros L F. eapply Forall_impl; [|exact F].
  intros c Lbc. exact (key_lt_trans _ _ _ L Lbc).
Qed.

Lemma below_trans (a b : Key) (l : list Key) :
  key_lt b a = true -> Forall (below b) l -> Forall (below a) l.
Proof.
  intros L F. eapply Forall_impl; [|exact F].
  intros c Lcb. exact (key_lt_trans _ _ _ Lcb L).
Qed.

Lemma ascending_app (l1 l2 : list Key) (a : Key) :
  ascending (l1 ++ a :: l2) <->
  ascending l1 /\ ascending l2 /\ Forall (below a) l1 /\ Forall (above a) l2.
Proof.
  induction l1 as [|b l1 IH].
  - simpl app. rewrite ascending_cons. simpl. intuition.
  - simpl app. rewrite !ascending_cons, IH, Forall_app.
    split.
    + intros ((F1 & F2) & A1 & A2 & B1 & B2).
      inversion F2 as [|? ? Lba F2']; subst. auto 10.
    + intros ((F1 & A1) & A2 & B1 & B2).
      inversion B1 as [|? ? Lba B1']; subst.
      repeat split; auto.
      constructor; [exact Lba|]. now apply above_trans with a.
Qed.

Lemma above_not_In (a : Key) (l : list Key) : Forall (above a) l -> ~ In a l.
Proof.
  intros F I. rewrite Forall_forall in F. specialize (F a I).
  rewrite key_lt_irrefl in F. discriminate.
Qed.

Lemma below_not_In (a : Key) (l : list Key) : Forall (below a) l -> ~ In a l.
Proof.
  intros F I. rewrite Forall_forall in F. specialize (F a I).
  rewrite key_lt_irrefl in F. discriminate.
Qed.

Lemma ascending_NoDup (l : list Key) : ascending l -> NoDup l.
Proof.
  induction l as [|a l IH]; [constructor|].
  rewrite ascending_cons. intros (F & A).
  constructor; [now apply above_not_In | auto].
Qed.

(** *** [lookup] *)

Lemma lookup_not_In (l : alist) (key : Key) :
  ~ In key (map fst l) -> lookup l key = None.
Proof.
  induction l as [|(k, i) l IH]; [reflexivity|]. simpl. intros N.
  destruct (key_cases key k) as [_ Ne|E|_ Ne]; auto.
  exfalso. apply N. left. congruence.
Qed.

Lemma lookup_In (l : alist) (key : Key) :
  In key (map fst l) <-> exists i, lookup l key = Some i.
Proof.
  induction l as [|(k, i) l IH]; simpl.
  - split; [contradiction|]. intros (i & E). discriminate.
  - destruct (key_cases key k) as [_ Ne|E|_ Ne].
    + rewrite <- IH. intuition congruence.
    + split; eauto.
    + rewrite <- IH. intuition congruence.
Qed.

Lemma lookup_app (l1 l2 : alist) (key : Key) :
  lookup (l1 ++ l2) key =
  match lookup l1 key with
  | Some i => Some i
  | None => lookup l2 key
  end.
Proof.
  induction l1 as [|(k, i) l1 IH]; [reflexivity|]. simpl.
  destruct (key_eq key k); auto.
Qed.

Lemma lookup_middle (l1 l2 : alist) (a : Key) (b : Info) (key : Key) :
  ascending (map fst (l1 ++ (a, b) :: l2)) ->
  lookup (l1 ++ (a, b) :: l2) key =
  if key_eq key a then Some b
  else if key_lt key a then lookup l1 key
  else lookup l2 key.
Proof.
  rewrite map_app. simpl map. rewrite ascending_app.
  intros (A1 & A2 & B1 & B2). rewrite lookup_app. simpl.
  destruct (key_cases key a) as [L Ne|E|L Ne].
  - destruct (lookup l1 key); [reflexivity|].
    apply lookup_not_In. apply above_not_In.
    now apply above_trans with a.
  - subst key. rewrite lookup_not_In; [reflexivity|].
    now apply below_not_In.
  - rewrite lookup_not_In; [reflexivity|].
    apply below_not_In. now apply below_trans with a.
Qed.

Lemma lookup_In_pair (l : alist) (key : Key) (i : Info) :
  ascending (map fst l) -> (lookup l key = Some i <-> In (key, i) l).
Proof.
  induction l as [|(a, x) l IH]; simpl map.
  - intros _. simpl. split; [discriminate|contradiction].
  - rewrite ascending_cons. intros (F & A). simpl.
    destruct (key_cases key a) as [_ Ne|E|_ Ne].
    + rewrite (IH A). split; [auto|]. intros [E|I]; [congruence|exact I].
    + subst a. split.
      * intros E. injection E as ->. now left.
      * intros [E|I]; [congruence|].
        exfalso. apply (above_not_In key (map fst l) F).
        change key with (fst (key, i)). now apply in_map.
    + rewrite (IH A). split; [auto|]. intros [E|I]; [congruence|exact I].
Qed.

(** *** [ins_list] *)

Lemma ins_list_middle (l1 l2 : alist) (a : Key) (b : Info) key info :
  ascending (map fst (l1 ++ (a, b) :: l2)) ->
  ins_list (l1 ++ (a, b) :: l2) key info =
  if key_lt key a then ins_list l1 key info ++ (a, b) :: l2
  else if key_gt key a then l1 ++ (a, b) :: ins_list l2 key info
  else l1 ++ (a, info) :: l2.
Proof.
  induction l1 as [|(c, d) l1 IH].
  - intros _. reflexivity.
  - simpl app. simpl map. rewrite ascending_cons. intros (F & A).
    specialize (IH A).
    assert (Lca : key_lt c a = true).
    { rewrite map_app, Forall_app in F. destruct F as (_ & F).
      now inversion F. }
    simpl ins_list. rewrite IH.
    destruct (key_cases key a) as [L Ne|E|L Ne].
    + destruct (key_cases key c); reflexivity.
    + subst key. destruct (key_cases a c) as [L' _|E' |_ _].
      * rewrite (key_lt_asym _ _ Lca) in L'. discriminate.
      * subst c. rewrite key_lt_irrefl in Lca. discriminate.
      * reflexivity.
    + pose proof (key_lt_trans _ _ _ Lca L) as Lck.
      destruct (key_cases key c) as [L' _|E' |_ _].
      * rewrite (key_lt_asym _ _ Lck) in L'. discriminate.
      * subst c. rewrite key_lt_irrefl in Lck. discriminate.
      * reflexivity.
Qed.

Lemma ins_list_keys_In (l : alist) key info (x : Key) :
  In x (map fst (ins_list l key info)) <-> x = key \/ In x (map fst l).
Proof.
  induction l as [|(k, i) l IH]; simpl.
  - intuition.
  - destruct (key_cases key k) as [L Ne|E|L Ne]; simpl.
    + intuition.
    + subst. intuition.
    + rewrite IH. intuition.
Qed.

Lemma ins_list_ascending (l : alist) key info :
  ascending (map fst l) -> ascending (map fst (ins_list l key info)).
Proof.
  induction l as [|(k, i) l IH]; [simpl; auto|].
  simpl map. rewrite ascending_cons. intros (F & A). simpl ins_list.
  destruct (key_cases key k) as [L Ne|E|L Ne]; simpl map.
  - rewrite !ascending_cons. repeat split; auto.
    constructor; [exact L|]. now apply above_trans with k.
  - rewrite ascending_cons. auto.
  - rewrite ascending_cons. split; [|auto].
    rewrite Forall_forall. intros x I. apply ins_list_keys_In in I.
    destruct I as [->|I]; [exact L|].
    rewrite Forall_forall in F. auto.
Qed.

Lemma lookup_ins_list (l : alist) key info (key' : Key) :
  lookup (ins_list l key info) key' =
  if key_eq key' key then Some info else lookup l key'.
Proof.
  induction l as [|(k, i) l IH]; simpl.
  - destruct (key_eq key' key); reflexivity.
  - destruct (key_cases key k) as [L Ne|E|L Ne]; simpl.
    + reflexivity.
    + subst k. destruct (key_eq key' key); reflexivity.
    + rewrite IH.
      destruct (key_cases key' k) as [_ _|E'|_ _]; try reflexivity.
      subst key'. rewrite (proj2 (key_eq_false k key)) by auto. reflexivity.
Qed.

(** Inserting a key that is there changes no key, only the info. *)
Lemma ins_list_present_keys (l : alist) key info :
  ascending (map fst l) -> In key (map fst l) ->
  map fst (ins_list l key info) = map fst l.
Proof.
  induction l as [|(k, i) l IH]; [contradiction|].
  simpl map. rewrite ascending_cons. intros (F & A) I. simpl ins_list.
  destruct (key_cases key k) as [L Ne|E|L Ne]; simpl map.
  - exfalso. destruct I as [E|I]; [congruence|].
    rewrite Forall_forall in F. specialize (F key I).
    rewrite (key_lt_asym _ _ L) in F. discriminate.
  - reflexivity.
  - f_equal. apply IH; auto. destruct I as [E|I]; [congruence|exact I].
Qed.

Lemma ins_list_absent_length (l : alist) key info :
  ~ In key (map fst l) ->
  List.length (ins_list l key info) = S (List.length l).
Proof.
  induction l as [|(k, i) l IH]; [reflexivity|]. simpl. intros N.
  destruct (key_cases key k) as [L Ne|E|L Ne]; simpl.
  - reflexivity.
  - exfalso. apply N. left. congruence.
  - rewrite IH; tauto.
Qed.

(** *** [del_list] *)

Lemma del_list_not_In (l : alist) (key : Key) :
  ~ In key (map fst l) -> del_list l key = l.
Proof.
  induction l as [|(k, i) l IH]; [reflexivity|]. simpl. intros N.
  destruct (key_cases key k) as [_ Ne|E|_ Ne].
  - rewrite IH; tauto.
  - exfalso. apply N. left. congruence.
  - rewrite IH; tauto.
Qed.

Lemma del_list_middle (l1 l2 : alist) (a : Key) (b : Info) (key : Key) :
  ascending (map fst (l1 ++ (a, b) :: l2)) ->
  del_list (l1 ++ (a, b) :: l2) key =
  if key_lt key a then del_list l1 key ++ (a, b) :: l2
  else if key_gt key a then l1 ++ (a, b) :: del_list l2 key
  else l1 ++ l2.
Proof.
  induction l1 as [|(c, d) l1 IH].
  - simpl app. simpl map. rewrite ascending_cons. intros (F & A). simpl.
    destruct (key_cases key a) as [L Ne|E|L Ne]; try reflexivity.
    rewrite del_list_not_In; [reflexivity|].
    apply above_not_In. now apply above_trans with a.
  - simpl app. simpl map. rewrite ascending_cons. intros (F & A).
    specialize (IH A).
    assert (Lca : key_lt c a = true).
    { rewrite map_app, Forall_app in F. destruct F as (_ & F).
      now inversion F. }
    simpl del_list. rewrite IH.
    destruct (key_cases key a) as [L Ne|E|L Ne].
    + destruct (key_eq key c); reflexivity.
    + subst key.
      rewrite (proj2 (key_eq_false a c)); [reflexivity|].
      intros ->. rewrite key_lt_irrefl in Lca. discriminate.
    + rewrite (proj2 (key_eq_false key c)); [reflexivity|].
      intros ->. rewrite (key_lt_asym _ _ Lca) in L. discriminate.
Qed.

Lemma del_list_incl (l : alist) (key x : Key) :
  In x (map fst (del_list l key)) -> In x (map fst l).
Proof.
  induction l as [|(k, i) l IH]; [auto|]. simpl.
  destruct (key_eq key k); simpl; intuition.
Qed.

Lemma del_list_ascending (l : alist) (key : Key) :
  ascending (map fst l) -> ascending (map fst (del_list l key)).
Proof.
  induction l as [|(k, i) l IH]; [auto|].
  simpl map. rewrite ascending_cons. intros (F & A). simpl del_list.
  destruct (key_eq key k); [exact A|].
  simpl map. rewrite ascending_cons. split; [|auto].
  rewrite Forall_forall in *. intros x I. apply F.
  now apply del_list_incl with key.
Qed.

Lemma lookup_del_list (l : alist) (key key' : Key) :
  ascending (map fst l) ->
  lookup (del_list l key) key' =
  if key_eq key' key then None else lookup l key'.
Proof.
  induction l as [|(k, i) l IH].
  - intros _. simpl. destruct (key_eq key' key); reflexivity.
  - simpl map. rewrite ascending_cons. intros (F & A). simpl.
    destruct (key_cases key k) as [_ Ne|E|_ Ne].
    + simpl. rewrite (IH A).
      destruct (key_cases key' k) as [_ _|E'|_ _]; try reflexivity.
      subst key'. rewrite (proj2 (key_eq_false k key)) by auto. reflexivity.
    + subst k. destruct (key_eq key' key) eqn:E'; [|reflexivity].
      apply key_eq_iff in E'. subst key'.
      apply lookup_not_In. now apply above_not_In.
    + simpl. rewrite (IH A).
      destruct (key_cases key' k) as [_ _|E'|_ _]; try reflexivity.
      subst key'. rewrite (proj2 (key_eq_false k key)) by auto. reflexivity.
Qed.

Lemma del_list_present_length (l : alist) (key : Key) :
  In key (map fst l) ->
  S (List.length (del_list l key)) = List.length l.
Proof.
  induction l as [|(k, i) l IH]; [contradiction|]. simpl.
  destruct (key_cases key k) as [_ Ne|E|_ Ne]; simpl; auto;
    intros [E|I]; try congruence; now rewrite IH.
Qed.

End ListFacts.

(** ** The tree operations on the in-order sequence *)

Section TreeFacts.
Context {Key Info : Type} `{KeyOrder Key}.

Local Abbreviation tree := (node Key Info).

Lemma bst_Node k i (l r : tree) h :
  bst (Node k i l r h) <->
  bst l /\ bst r /\
  Forall (fun x => key_lt x k = true) (keys l) /\
  Forall (fun x => key_lt k x = true) (keys r).
Proof. unfold bst. rewrite keys_Node. apply ascending_app. Qed.

Lemma bst_entries_Node k i (l r : tree) h :
  bst (Node k i l r h) ->
  ascending (map fst (entries l ++ (k, i) :: entries r)).
Proof. unfold bst, keys. now rewrite entries_Node. Qed.

(** On a search tree [find] is the lookup in the in-order sequence. *)
Lemma find_lookup (n : tree) (key : Key) :
  bst n -> find n key = lookup (entries n) key.
Proof.
  induction n as [|k i l IHl r IHr h]; [reflexivity|]. intros B.
  rewrite entries_Node, lookup_middle by (eapply bst_entries_Node; eassumption).
  apply bst_Node in B. destruct B as (Bl & Br & _).
  simpl. rewrite IHl, IHr by assumption. reflexivity.
Qed.

(** [find] returns nothing for a key that no node holds, whatever the shape
    of the tree. *)
Lemma find_not_In (n : tree) (key : Key) :
  ~ In key (keys n) -> find n key = None.
Proof.
  induction n as [|k i l IHl r IHr h]; [reflexivity|].
  rewrite keys_Node, in_app_iff. simpl. intros N.
  destruct (key_cases key k) as [_ Ne|E|_ Ne].
  - apply IHl. tauto.
  - exfalso. apply N. right. left. congruence.
  - apply IHr. tauto.
Qed.

Lemma find_In (n : tree) (key : Key) :
  bst n -> (In key (keys n) <-> exists i, find n key = Some i).
Proof.
  intros B. rewrite find_lookup by assumption. apply lookup_In.
Qed.

Lemma insert_entries (n t : tree) key info :
  bst n -> insert n key info = Some t ->
  entries t = ins_list (entries n) key info.
Proof.
  revert t. induction n as [|k i l IHl r IHr h]; intros t B E.
  - injection E as <-. reflexivity.
  - rewrite entries_Node, ins_list_middle by (eapply bst_entries_Node; eassumption).
    apply bst_Node in B. destruct B as (Bl & Br & _).
    simpl in E.
    destruct (key_lt key k); [|destruct (key_gt key k)].
    + apply bind_Some in E. destruct E as (l' & El & E).
      apply rebalance_entries in E. rewrite E, entries_Node.
      now rewrite (IHl l' Bl El).
    + apply bind_Some in E. destruct E as (r' & Er & E).
      apply rebalance_entries in E. rewrite E, entries_Node.
      now rewrite (IHr r' Br Er).
    + injection E as <-. now rewrite entries_Node.
Qed.

(** The node that [min_node] returns holds the first entry. *)
Lemma min_node_entries (n : tree) (p : Key * Info) :
  min_node n = Some p -> exists rest, entries n = p :: rest.
Proof.
  induction n as [|k i l IHl r _ h]; [discriminate|].
  rewrite entries_Node.
  destruct l as [|lk li ll lr lh]; simpl min_node.
  - intros E. injection E as <-. eexists. reflexivity.
  - intros E. destruct (IHl E) as (rest & ->). eexists. reflexivity.
Qed.

Lemma remove_entries (n t : tree) (key : Key) :
  bst n -> remove n key = Some t ->
  entries t = del_list (entries n) key.
Proof.
  revert t key. induction n as [|k i l IHl r IHr h]; intros t key B E.
  - injection E as <-. reflexivity.
  - rewrite entries_Node, del_list_middle by (eapply bst_entries_Node; eassumption).
    apply bst_Node in B. destruct B as (Bl & Br & _).
    simpl in E.
    destruct (key_lt key k); [|destruct (key_gt key k)].
    + apply bind_Some in E. destruct E as (l' & El & E).
      apply rebalance_entries in E. rewrite E, entries_Node.
      now rewrite (IHl l' key Bl El).
    + apply bind_Some in E. destruct E as (r' & Er & E).
      apply rebalance_entries in E. rewrite E, entries_Node.
      now rewrite (IHr r' key Br Er).
    + destruct l as [|lk li ll lr lh], r as [|rk ri rl rr rh].
      * injection E as <-. reflexivity.
      * apply rebalance_entries in E. rewrite E. reflexivity.
      * apply rebalance_entries in E. rewrite E.
        change (entries (@nullptr Key Info)) with (@nil (Key * Info)).
        now rewrite app_nil_r.
      * apply bind_Some in E. destruct E as (temp & Et & E).
        apply bind_Some in E. destruct E as (r' & Er & E).
        apply rebalance_entries in E. rewrite E, entries_Node.
        rewrite (IHr r' (fst temp) Br Er).
        destruct (min_node_entries _ _ Et) as (rest & ->).
        destruct temp as (tk, ti). simpl.
        rewrite key_eq_refl. reflexivity.
Qed.

Lemma insert_bst (n t : tree) key info :
  bst n -> insert n key info = Some t -> bst t.
Proof.
  intros B E. unfold bst, keys. rewrite (insert_entries n t key info B E).
  now apply ins_list_ascending.
Qed.

Lemma remove_bst (n t : tree) (key : Key) :
  bst n -> remove n key = Some t -> bst t.
Proof.
  intros B E. unfold bst, keys. rewrite (remove_entries n t key B E).
  now apply del_list_ascending.
Qed.

(** *** Assignment through a reference to an info field *)

Lemma assign_keys (n : tree) (key : Key) (v : Info) :
  keys (assign n key v) = keys n.
Proof.
  induction n as [|k i l IHl r IHr h]; [reflexivity|]. simpl.
  destruct (key_eq key k); [|destruct (key_lt key k)];
    rewrite !keys_Node; congruence.
Qed.

Lemma assign_height (n : tree) (key : Key) (v : Info) :
  height (assign n key v) = height n.
Proof.
  destruct n as [|k i l r h]; [reflexivity|]. simpl.
  destruct (key_eq key k); [|destruct (key_lt key k)]; reflexivity.
Qed.

Lemma assign_avl (n : tree) (key : Key) (v : Info) :
  avl n -> avl (assign n key v).
Proof.
  induction n as [|k i l IHl r IHr h]; [auto|]. simpl.
  intros (Al & Ar & Eh & B).
  destruct (key_eq key k); [|destruct (key_lt key k)]; simpl;
    rewrite ?assign_height; auto.
Qed.

Lemma assign_bst (n : tree) (key : Key) (v : Info) :
  bst n -> bst (assign n key v).
Proof. unfold bst. now rewrite assign_keys. Qed.

Lemma find_assign (n : tree) (key : Key) (v : Info) (key' : Key) :
  find (assign n key v) key' =
  if key_eq key' key
  then match find n key with Some _ => Some v | None => None end
  else find n key'.
Proof.
  induction n as [|k i l IHl r IHr h].
  - simpl. destruct (key_eq key' key); reflexivity.
  - simpl. destruct (key_cases key k) as [L Ne|E|L Ne]; simpl.
    + destruct (key_cases key' k) as [L' Ne'|E'|L' Ne'].
      * apply IHl.
      * subst key'. now rewrite (proj2 (key_eq_false k key)) by auto.
      * rewrite (proj2 (key_eq_false key' key)); [reflexivity|].
        intros ->. rewrite (key_lt_asym _ _ L) in L'. discriminate.
    + subst k. destruct (key_cases key' key) as [L' Ne'|E'|L' Ne'];
        reflexivity.
    + destruct (key_cases key' k) as [L' Ne'|E'|L' Ne'].
      * rewrite (proj2 (key_eq_false key' key)); [reflexivity|].
        intros ->. rewrite (key_lt_asym _ _ L) in L'. discriminate.
      * subst key'. now rewrite (proj2 (key_eq_false k key)) by auto.
      * apply IHr.
Qed.

End TreeFacts.

(** ** The key types [int] and [std::string] satisfy the requirements *)

#[export] Instance Z_KeyOrder : KeyOrder Z.
Proof.
  split; simpl.
  - apply Z.eqb_eq.
  - apply Z.gtb_ltb.
  - apply Z.ltb_irrefl.
  - intros a b c. rewrite !Z.ltb_lt. lia.
  - intros a b. rewrite !Z.ltb_ge. lia.
Qed.

Lemma ascii_compare_refl (a : ascii) : Ascii.compare a a = Eq.
Proof. unfold Ascii.compare. apply N.compare_refl. Qed.

Lemma ascii_compare_lt_trans (a b c : ascii) :
  Ascii.compare a b = Lt -> Ascii.compare b c = Lt -> Ascii.compare a c = Lt.
Proof.
  unfold Ascii.compare. rewrite !N.compare_lt_iff. apply N.lt_trans.
Qed.

Lemma string_compare_refl (s : string) : String.compare s s = Eq.
Proof.
  induction s as [|c s IH]; [reflexivity|].
  simpl. now rewrite ascii_compare_refl.
Qed.

Lemma string_compare_lt_trans (a b c : string) :
  String.compare a b = Lt -> String.compare b c = Lt ->
  String.compare a c = Lt.
Proof.
  revert b c. induction a as [|x a IH]; intros [|y b] [|z c]; simpl;
    try discriminate; auto.
  destruct (Ascii.compare x y) eqn:Exy; try discriminate;
    destruct (Ascii.compare y z) eqn:Eyz; try discriminate; intros Hab Hbc.
  - apply Ascii.compare_eq_iff in Exy, Eyz. subst.
    rewrite ascii_compare_refl. eauto.
  - apply Ascii.compare_eq_iff in Exy. subst. now rewrite Eyz.
  - apply Ascii.compare_eq_iff in Eyz. subst. now rewrite Exy.
  - now rewrite (ascii_compare_lt_trans _ _ _ Exy Eyz).
Qed.

#[export] Instance string_KeyOrder : KeyOrder string.
Proof.
  split; simpl.
  - apply String.eqb_eq.
  - reflexivity.
  - intros a. unfold String.ltb. now rewrite string_compare_refl.
  - intros a b c. unfold String.ltb.
    destruct (String.compare a b) eqn:Eab; try discriminate.
    destruct (String.compare b c) eqn:Ebc; try discriminate.
    now rewrite (string_compare_lt_trans _ _ _ Eab Ebc).
  - intros a b. unfold String.ltb.
    rewrite (String.compare_antisym b a).
    destruct (String.compare a b) eqn:Eab; simpl; try discriminate.
    intros _ _. now apply String.compare_eq_iff.
Qed.

(** ** The invariants hold after every sequence of operations *)

Section Invariants.
Context {Key Info : Type} `{KeyOrder Key}.

Local Abbreviation tree := (node Key Info).

Lemma apply_op_invariants (n : tree) (o : operation Key Info) :
  avl n -> bst n ->
  exists t, apply_op n o = Some t /\ avl t /\ bst t.
Proof.
  intros A B. destruct o as [key info|key]; simpl.
  - destruct (insert_avl n key info A) as (t & E & At & _).
    exists t. repeat split; auto. now apply insert_bst with n key info.
  - destruct (remove_avl n key A) as (t & E & At & _).
    exists t. repeat split; auto. now apply remove_bst with n key.
Qed.

Lemma run_invariants (ops : list (operation Key Info)) (n : tree) :
  avl n -> bst n ->
  exists t, run ops n = Some t /\ avl t /\ bst t.
Proof.
  revert n. induction ops as [|o ops IH]; intros n A B; simpl.
  - eauto.
  - destruct (apply_op_invariants n o A B) as (n' & -> & A' & B').
    simpl. now apply IH.
Qed.

(** C1: every sequence of insert and remove operations, run from the empty
    tree, dereferences no null pointer and ends in a tree whose in-order
    traversal ([to_vector]) has strictly ascending keys, whose every cached
    height is 1 + max(height(left), height(right)), and whose every balance
    factor is -1, 0 or 1. *)
Theorem insert_remove_invariants (ops : list (operation Key Info)) :
  exists t : tree,
    run ops nullptr = Some t /\
    ascending (map fst (to_vector t [])) /\
    heights_cached t /\
    balanced t.
Proof.
  destruct (run_invariants ops nullptr) as (t & E & A & B).
  - exact I.
  - exact I.
  - apply avl_split in A. destruct A as (Hc & Bal).
    exists t. auto.
Qed.

End Invariants.

(** ** Insertion, removal and lookup *)

Section Operations.
Context {Key Info : Type} `{KeyOrder Key}.

Local Abbreviation tree := (node Key Info).

(** C3: inserting a key that the tree already holds, with any info,
    leaves [size()] and the sequence of keys as they were, so that no key
    appears twice, and afterwards [search] finds the key with the info
    just inserted. *)
Theorem insert_existing_key (t : tree) (key : Key) (info : Info) :
  avl t -> bst t -> In key (keys t) ->
  exists t' : tree,
    insert t key info = Some t' /\
    size t' = size t /\
    keys t' = keys t /\
    NoDup (keys t') /\
    forall out, search t' key out = (true, info, t').
Proof.
  intros A B I.
  destruct (insert_avl t key info A) as (t' & E & _).
  pose proof (insert_entries t t' key info B E) as Ent.
  assert (K : keys t' = keys t).
  { unfold keys. rewrite Ent. now apply ins_list_present_keys. }
  exists t'. repeat split; auto.
  - unfold size. rewrite <- (length_map fst (to_vector t' [])).
    rewrite <- (length_map fst (to_vector t [])).
    fold (entries t') (entries t) (keys t') (keys t). now rewrite K.
  - rewrite K. now apply ascending_NoDup.
  - intros out. unfold search.
    rewrite find_lookup by now apply insert_bst with t key info.
    rewrite Ent, lookup_ins_list, key_eq_refl. reflexivity.
Qed.

(** C4: after [remove(k)] of a key that the tree holds, [search(k, out)]
    returns false, and every other key that was there is still found with
    the info it had. *)
Theorem remove_then_search (t : tree) (key : Key) :
  avl t -> bst t -> In key (keys t) ->
  exists t' : tree,
    remove t key = Some t' /\
    (forall out, search t' key out = (false, out, t')) /\
    (forall key' i out,
        key' <> key -> In (key', i) (to_vector t []) ->
        search t' key' out = (true, i, t')).
Proof.
  intros A B I.
  destruct (remove_avl t key A) as (t' & E & _).
  pose proof (remove_entries t t' key B E) as Ent.
  pose proof (remove_bst t t' key B E) as B'.
  exists t'. split; [exact E|]. split.
  - intros out. unfold search.
    rewrite find_lookup, Ent, lookup_del_list, key_eq_refl by assumption.
    reflexivity.
  - intros key' i out Ne F. unfold search.
    rewrite find_lookup, Ent, lookup_del_list by assumption.
    rewrite (proj2 (key_eq_false key' key) Ne).
    apply (lookup_In_pair (entries t) key' i B) in F. rewrite F. reflexivity.
Qed.

(** C5: [remove(k)] of a key that the tree does not hold, the empty tree
    included, dereferences no null pointer and returns the very tree it
    was given: the structure, and with it the sequence that [to_vector]
    produces, is unchanged. *)
Theorem remove_absent_key (t : tree) (key : Key) :
  avl t -> ~ In key (keys t) ->
  remove t key = Some t /\
  remove (@nullptr Key Info) key = Some nullptr.
Proof.
  intros A N. split; [|reflexivity].
  induction t as [|k i l IHl r IHr h]; [reflexivity|].
  simpl in A. destruct A as (Al & Ar & Eh & B).
  rewrite keys_Node, in_app_iff in N. simpl in N. simpl.
  destruct (key_cases key k) as [_ Ne|Eq|_ Ne].
  - rewrite IHl by tauto. simpl. rewrite Eh. now apply rebalance_balanced.
  - exfalso. apply N. right. left. congruence.
  - rewrite IHr by tauto. simpl. rewrite Eh. now apply rebalance_balanced.
Qed.

(** C10: [search(k, info_out)] for a key that the tree does not hold
    returns false, leaves the output parameter as the caller passed it,
    and leaves the tree as it is. *)
Theorem search_absent_key (t : tree) (key : Key) (info_out : Info) :
  ~ In key (keys t) ->
  search t key info_out = (false, info_out, t).
Proof.
  intros N. unfold search. now rewrite find_not_In.
Qed.

Section Indexing.
Variable info_default : Info.

(** C9: the read-only [operator[]] for a key that the tree does not hold
    signals no error and returns the static default, a default-constructed
    info; the tree is as it was. *)
Theorem index_const_absent_key (t : tree) (key : Key) :
  ~ In key (keys t) ->
  index_const info_default t key = (info_default, t).
Proof.
  intros N. unfold index_const. now rewrite find_not_In.
Qed.

(** What [operator[]] does, as its callers need it. *)
Lemma index_spec (t : tree) (key : Key) :
  avl t -> bst t ->
  exists (t' : tree) (i : Info),
    index info_default t key = Some (t', i) /\
    avl t' /\ bst t' /\
    find t' key = Some i /\
    (forall i0, find t key = Some i0 -> t' = t /\ i = i0) /\
    (find t key = None ->
     insert t key info_default = Some t' /\ i = info_default) /\
    (forall key', key' <> key -> find t' key' = find t key').
Proof.
  intros A B. unfold index.
  destruct (find t key) as [i0|] eqn:F.
  - exists t, i0. split; [reflexivity|]. split; [exact A|].
    split; [exact B|]. split; [exact F|].
    split; [intros i1 E; split; congruence|].
    split; [discriminate|]. reflexivity.
  - destruct (insert_avl t key info_default A) as (t' & E & A' & _).
    pose proof (insert_entries t t' key info_default B E) as Ent.
    pose proof (insert_bst t t' key info_default B E) as B'.
    assert (F' : forall key', find t' key' =
                   if key_eq key' key then Some info_default
                   else find t key').
    { intros key'.
      rewrite find_lookup, Ent, lookup_ins_list by assumption.
      now rewrite <- find_lookup by assumption. }
    exists t', info_default. rewrite E. simpl.
    rewrite (F' key), key_eq_refl. simpl.
    split; [reflexivity|]. split; [exact A'|]. split; [exact B'|].
    split; [reflexivity|]. split; [discriminate|]. split; [auto|].
    intros key' Ne. rewrite F'.
    now rewrite (proj2 (key_eq_false key' key) Ne).
Qed.

(** C8: the mutable [operator[]] dereferences no null pointer and returns
    a reference to the info of the key: the tree is unchanged and the info
    is the stored one when the key is there; otherwise the key is first
    inserted with the default info, which is then the info referred to.  In
    both cases the key is in the tree afterwards, and a value assigned
    through the reference is the one found for the key from then on, the
    other keys keeping theirs. *)
Theorem index_returns_reference (t : tree) (key : Key) :
  avl t -> bst t ->
  exists (t' : tree) (i : Info),
    index info_default t key = Some (t', i) /\
    find t' key = Some i /\
    In key (keys t') /\
    (forall i0, find t key = Some i0 -> t' = t /\ i = i0) /\
    (find t key = None ->
     insert t key info_default = Some t' /\ i = info_default) /\
    (forall v key',
        find (assign t' key v) key' =
        if key_eq key' key then Some v else find t' key').
Proof.
  intros A B.
  destruct (index_spec t key A B) as (t' & i & E & A' & B' & F & P & Q & _).
  exists t', i. split; [exact E|]. split; [exact F|].
  split; [apply find_In; eauto|]. split; [exact P|]. split; [exact Q|].
  intros v key'. now rewrite find_assign, F.
Qed.

End Indexing.

End Operations.

(** ** The rotation cases of the tests *)

(** C6: with [int] keys, inserting 3, 2, 1 into the empty tree gives the
    in-order keys 1, 2, 3 under the root 2 (single right rotation);
    inserting 30, 10, 20 gives 10, 20, 30 under the root 20 (left-right
    double rotation); inserting 10, 30, 20 gives the same tree (right-left
    double rotation).  The infos are arbitrary. *)
Theorem rotation_cases (Info : Type) (a b c : Info) :
  let single := Node 2 b (Node 1 c nullptr nullptr 1)
                         (Node 3 a nullptr nullptr 1) 2 in
  let left_right := Node 20 c (Node 10 b nullptr nullptr 1)
                              (Node 30 a nullptr nullptr 1) 2 in
  let right_left := Node 20 c (Node 10 a nullptr nullptr 1)
                              (Node 30 b nullptr nullptr 1) 2 in
  (run [op_insert 3 a; op_insert 2 b; op_insert 1 c] nullptr = Some single /\
   map fst (to_vector single []) = [1; 2; 3]) /\
  (run [op_insert 30 a; op_insert 10 b; op_insert 20 c] nullptr
     = Some left_right /\
   map fst (to_vector left_right []) = [10; 20; 30]) /\
  (run [op_insert 10 a; op_insert 30 b; op_insert 20 c] nullptr
     = Some right_left /\
   map fst (to_vector right_left []) = [10; 20; 30]).
Proof. repeat split. Qed.

(** ** [count_words] *)

(** *** Extraction from the stream and the tokens of the text *)

Lemma string_app_nil (s : string) : (s ++ EmptyString)%string = s.
Proof. induction s as [|c s IH]; simpl; congruence. Qed.

Lemma string_app_assoc (a b c : string) :
  ((a ++ b) ++ c)%string = (a ++ (b ++ c))%string.
Proof. induction a as [|x a IH]; simpl; congruence. Qed.

Lemma tokens_from_skip_ws (text : string) :
  tokens_from EmptyString (skip_ws text) = tokens_from EmptyString text.
Proof.
  induction text as [|c rest IH]; [reflexivity|]. simpl.
  destruct (isspace c) eqn:S; [exact IH|].
  simpl. now rewrite S.
Qed.

Lemma tokens_from_take_word (text word : string) :
  tokens_from word text =
  match (word ++ fst (take_word text))%string with
  | EmptyString => tokens_from EmptyString (snd (take_word text))
  | full => full :: tokens_from EmptyString (snd (take_word text))
  end.
Proof.
  revert word. induction text as [|c rest IH]; intros word.
  - simpl. rewrite string_app_nil. destruct word; reflexivity.
  - simpl. destruct (isspace c) eqn:S.
    + simpl. rewrite string_app_nil, S. destruct word; reflexivity.
    + rewrite IH. destruct (take_word rest) as (w, stream'). simpl.
      now rewrite string_app_assoc.
Qed.

Lemma take_word_length (text : string) :
  (String.length (fst (take_word text)) + String.length (snd (take_word text))
   = String.length text)%nat.
Proof.
  induction text as [|c rest IH]; [reflexivity|]. simpl.
  destruct (isspace c); [reflexivity|].
  destruct (take_word rest) as (w, stream'). simpl in *. lia.
Qed.

Lemma skip_ws_length (text : string) :
  (String.length (skip_ws text) <= String.length text)%nat.
Proof.
  induction text as [|c rest IH]; simpl; [lia|].
  destruct (isspace c); simpl; lia.
Qed.

Lemma take_word_skip_ws_empty (text : string) :
  fst (take_word (skip_ws text)) = EmptyString ->
  skip_ws text = EmptyString.
Proof.
  induction text as [|c rest IH]; [reflexivity|]. simpl.
  destruct (isspace c) eqn:S; [exact IH|].
  simpl. rewrite S. destruct (take_word rest). discriminate.
Qed.

(** A failed extraction means that no token is left; a successful one
    yields the first token and leaves a shorter stream with the other
    tokens. *)
Lemma extract_tokens (stream : string) :
  match extract stream with
  | None => tokens stream = []
  | Some (word, stream') =>
      tokens stream = word :: tokens stream' /\
      (String.length stream' < String.length stream)%nat
  end.
Proof.
  unfold extract, tokens.
  rewrite <- (tokens_from_skip_ws stream).
  rewrite (tokens_from_take_word (skip_ws stream) EmptyString).
  pose proof (take_word_length (skip_ws stream)) as L.
  pose proof (skip_ws_length stream) as L'.
  pose proof (take_word_skip_ws_empty stream) as Z.
  destruct (take_word (skip_ws stream)) as (word, stream'). simpl in *.
  destruct word as [|c word].
  - rewrite (Z eq_refl) in L. simpl in L.
    destruct stream'; [reflexivity|discriminate].
  - simpl in L. split; [reflexivity|lia].
Qed.

(** With as many rounds as the stream has characters, the loop handles
    every token of the stream. *)
Lemma count_words_loop_tokens (rounds : nat) (stream : string)
  (word_count : node string Z) :
  (String.length stream <= rounds)%nat ->
  count_words_loop rounds stream word_count =
  count_tokens (tokens stream) word_count.
Proof.
  revert stream word_count.
  induction rounds as [|rounds IH]; intros stream word_count L.
  - destruct stream; [reflexivity|simpl in L; lia].
  - pose proof (extract_tokens stream) as T.
    unfold count_words_loop; fold count_words_loop.
    destruct (extract stream) as [(word, stream')|].
    + destruct T as (-> & Lt). simpl.
      destruct (clean word) as [|c cleaned]; simpl.
      * apply IH. lia.
      * destruct (count_word word_count (String c cleaned)); simpl;
          [apply IH; lia|reflexivity].
    + rewrite T. reflexivity.
Qed.

(** *** The counts *)

Lemma occurrences_snoc (done : list string) (cw w : string) :
  occurrences (done ++ [cw]) w =
  (occurrences done w + if String.eqb w cw then 1 else 0)%nat.
Proof.
  unfold occurrences. rewrite count_occ_app. simpl.
  destruct (string_dec cw w) as [->|Ne].
  - now rewrite String.eqb_refl.
  - destruct (String.eqb_spec w cw); [congruence|reflexivity].
Qed.

Lemma stored_count_inv (n : nat) (i : Z) :
  stored_count n = Some i -> i = Z.of_nat n.
Proof. destruct n; simpl; congruence. Qed.

Lemma stored_count_None (n : nat) : stored_count n = None -> n = O.
Proof. destruct n; simpl; congruence. Qed.

Lemma count_word_spec (t : node string Z) (cw : string) (done : list string) :
  avl t -> bst t ->
  (forall w, find t w = stored_count (occurrences done w)) ->
  Z.of_nat (occurrences done cw) < INT_MAX ->
  exists t', count_word t cw = Some t' /\ avl t' /\ bst t' /\
             forall w, find t' w = stored_count (occurrences (done ++ [cw]) w).
Proof.
  intros A B F Lt. unfold count_word.
  destruct (index_spec 0 t cw A B) as (t1 & i & -> & A1 & B1 & F1 & P & Q & R).
  simpl.
  assert (Ei : i = Z.of_nat (occurrences done cw)).
  { specialize (F cw). destruct (find t cw) as [i0|] eqn:Fc.
    - destruct (P i0 eq_refl) as (_ & ->).
      symmetry in F. now apply stored_count_inv.
    - destruct (Q eq_refl) as (_ & ->).
      symmetry in F. apply stored_count_None in F. now rewrite F. }
  unfold int_incr. destruct (Z.ltb_spec i INT_MAX) as [_|Ge]; [|lia].
  simpl. eexists. split; [reflexivity|].
  split; [now apply assign_avl|]. split; [now apply assign_bst|].
  intros w. rewrite find_assign, F1, occurrences_snoc.
  change (@key_eq string string_KeyOps w cw) with (String.eqb w cw).
  destruct (String.eqb_spec w cw) as [->|Ne].
  - rewrite Ei, Nat.add_1_r. simpl stored_count. f_equal. lia.
  - rewrite Nat.add_0_r, R by assumption. apply F.
Qed.

Lemma cleaned_cons (word : string) (rest : list string) :
  filter (fun w => negb (String.eqb w EmptyString)) (map clean (word :: rest)) =
  match clean word with
  | EmptyString => []
  | cw => [cw]
  end ++ filter (fun w => negb (String.eqb w EmptyString)) (map clean rest).
Proof. simpl. destruct (clean word); reflexivity. Qed.

Lemma occurrences_le_app (done more : list string) (w : string) :
  (occurrences done w <= occurrences (done ++ more) w)%nat.
Proof. unfold occurrences. rewrite count_occ_app. lia. Qed.

Lemma count_tokens_spec (words : list string) (t : node string Z)
  (done : list string) :
  let cleaned :=
    filter (fun w => negb (String.eqb w EmptyString)) (map clean words) in
  avl t -> bst t ->
  (forall w, find t w = stored_count (occurrences done w)) ->
  (forall w, Z.of_nat (occurrences (done ++ cleaned) w) <= INT_MAX) ->
  exists t', count_tokens words t = Some t' /\ avl t' /\ bst t' /\
             forall w, find t' w = stored_count (occurrences (done ++ cleaned) w).
Proof.
  revert t done. induction words as [|word rest IH]; intros t done cleaned A B F Le.
  - exists t. subst cleaned. simpl. rewrite app_nil_r. auto.
  - subst cleaned. rewrite cleaned_cons in *. simpl count_tokens.
    destruct (clean word) as [|c cw] eqn:C.
    + simpl. apply IH; assumption.
    + set (cword := String c cw) in *.
      rewrite (app_assoc done [cword]) in *.
      destruct (count_word_spec t cword done A B F) as (t1 & -> & A1 & B1 & F1).
      { pose proof (Le cword) as Le1.
        pose proof (occurrences_le_app (done ++ [cword])
                      (filter (fun w => negb (String.eqb w EmptyString))
                         (map clean rest)) cword) as Le2.
        rewrite occurrences_snoc, String.eqb_refl in Le2. lia. }
      simpl. apply IH; assumption.
Qed.

(** *** Text without alphanumeric characters *)

Lemma clean_app (a b : string) :
  clean (a ++ b) = (clean a ++ clean b)%string.
Proof.
  induction a as [|c a IH]; [reflexivity|]. simpl.
  destruct (isalnum c); simpl; congruence.
Qed.

Lemma clean_no_alnum (s : string) :
  (forall c, In c (list_ascii_of_string s) -> isalnum c = false) ->
  clean s = EmptyString.
Proof.
  induction s as [|c s IH]; [reflexivity|]. simpl. intros N.
  rewrite (N c) by auto. apply IH. auto.
Qed.

Lemma tokens_from_no_alnum (text word : string) :
  clean word = EmptyString -> clean text = EmptyString ->
  Forall (fun w => clean w = EmptyString) (tokens_from word text).
Proof.
  revert word. induction text as [|c rest IH]; intros word Cw Ct; simpl.
  - destruct word; auto.
  - simpl in Ct. destruct (isalnum c) eqn:Al; [discriminate|].
    destruct (isspace c).
    + destruct word; auto.
    + apply IH; [|exact Ct]. rewrite clean_app, Cw. simpl. now rewrite Al.
Qed.

Lemma count_tokens_no_alnum (words : list string) (t : node string Z) :
  Forall (fun w => clean w = EmptyString) words ->
  count_tokens words t = Some t.
Proof.
  induction 1 as [|word rest C _ IH]; [reflexivity|].
  simpl. rewrite C. exact IH.
Qed.

(** C7: [count_words] splits the stream into its whitespace-delimited
    tokens, keeps of every token the lower-cased alphanumeric characters,
    drops the tokens of which nothing is left, and returns a tree that
    holds every remaining cleaned token with the number of its occurrences,
    and nothing else, as long as no count leaves the range of [int].  The
    text "Hello, world! World... hello!" gives exactly hello -> 2 and
    world -> 2, and a text without any alphanumeric character gives the
    empty tree. *)
Theorem count_words_counts :
  (forall stream : string,
      (forall w, Z.of_nat (occurrences (cleaned_tokens stream) w) <= INT_MAX) ->
      exists t,
        count_words stream = Some t /\ avl t /\ bst t /\
        forall w,
          find t w = stored_count (occurrences (cleaned_tokens stream) w)) /\
  (exists t,
      count_words "Hello, world! World... hello!" = Some t /\
      to_vector t [] = [("hello"%string, 2); ("world"%string, 2)]) /\
  (forall stream : string,
      (forall c, In c (list_ascii_of_string stream) -> isalnum c = false) ->
      count_words stream = Some nullptr /\
      option_map empty (count_words stream) = Some true).
Proof.
  split; [|split].
  - intros stream Le. unfold count_words.
    rewrite count_words_loop_tokens by lia.
    apply (count_tokens_spec (tokens stream) nullptr []).
    + exact I.
    + exact I.
    + intros w. reflexivity.
    + exact Le.
  - eexists. split; vm_compute; reflexivity.
  - intros stream N.
    assert (E : count_words stream = Some nullptr).
    { unfold count_words. rewrite count_words_loop_tokens by lia.
      apply count_tokens_no_alnum. apply tokens_from_no_alnum; [reflexivity|].
      now apply clean_no_alnum. }
    rewrite E. split; reflexivity.
Qed.

(** *** A count beyond the range of [int] *)

Lemma count_tokens_app (l1 l2 : list string) (t : node string Z) :
  count_tokens (l1 ++ l2) t =
  (t' <- count_tokens l1 t ;; count_tokens l2 t').
Proof.
  revert t. induction l1 as [|word l1 IH]; intros t; [reflexivity|].
  simpl.
  destruct (match clean word with
            | EmptyString => Some t
            | String _ _ => count_word t (clean word)
            end) as [t1|]; simpl; [apply IH|reflexivity].
Qed.

Lemma tokens_repeat_a (n : nat) :
  tokens (repeat_string "a " n) = repeat "a"%string n.
Proof.
  induction n as [|n IH]; [reflexivity|].
  change (tokens (repeat_string "a " (S n)))
    with ("a"%string :: tokens (repeat_string "a " n)).
  now rewrite IH.
Qed.

Lemma cleaned_repeat_a (n : nat) :
  filter (fun w => negb (String.eqb w EmptyString))
    (map clean (repeat "a"%string n)) = repeat "a"%string n.
Proof.
  induction n as [|n IH]; [reflexivity|].
  change (repeat "a"%string (S n)) with ("a"%string :: repeat "a"%string n).
  rewrite cleaned_cons, IH. reflexivity.
Qed.

Lemma occurrences_repeat_a (n : nat) (w : string) :
  (occurrences (repeat "a"%string n) w <= n)%nat /\
  occurrences (repeat "a"%string n) "a" = n.
Proof.
  unfold occurrences. split.
  - rewrite <- (repeat_length "a"%string n) at 2. apply count_occ_bound.
  - now apply count_occ_repeat_eq.
Qed.

(** With one occurrence more than [INT_MAX] the last increment is that of
    a count of [INT_MAX]. *)
Lemma count_words_overflows (n : nat) :
  Z.of_nat n = INT_MAX ->
  count_words (repeat_string "a " (S n)) = None /\
  occurrences (cleaned_tokens (repeat_string "a " (S n))) "a" = S n.
Proof.
  intros En. split.
  - unfold count_words. rewrite count_words_loop_tokens by lia.
    rewrite tokens_repeat_a.
    change (repeat "a"%string (S n)) with ("a"%string :: repeat "a"%string n).
    rewrite repeat_cons, count_tokens_app.
    destruct (count_tokens_spec (repeat "a"%string n) nullptr [])
      as (t1 & -> & A1 & B1 & F1); try exact I.
    + intros w. reflexivity.
    + intros w. simpl app. rewrite cleaned_repeat_a.
      destruct (occurrences_repeat_a n w). lia.
    + cbn [bind]. specialize (F1 "a"%string). simpl app in F1.
      rewrite cleaned_repeat_a in F1.
      rewrite (proj2 (occurrences_repeat_a n "a")) in F1.
      assert (Fa : find t1 "a"%string = Some INT_MAX).
      { rewrite F1, <- En. destruct n as [|n]; [discriminate En|].
        reflexivity. }
      change (count_tokens ["a"%string] t1)
        with (t' <- count_word t1 "a" ;; Some t').
      unfold count_word, index. rewrite Fa. cbn [bind snd].
      unfold int_incr. rewrite Z.ltb_irrefl. reflexivity.
  - unfold cleaned_tokens. rewrite tokens_repeat_a, cleaned_repeat_a.
    apply occurrences_repeat_a. exact "a"%string.
Qed.

Lemma INT_MAX_as_nat : Z.of_nat (Z.to_nat INT_MAX) = INT_MAX.
Proof. apply Z2Nat.id. discriminate. Qed.

(** C7, as it is stated for every stream, fails on a stream in which the
    word "a" occurs [INT_MAX + 1] times: the tree would have to hold that
    number for "a", but the last [word_count["a"]++] increments an [int]
    of [INT_MAX], which is undefined, and no such tree is returned. *)
Lemma count_words_int_overflow :
  count_words overflowing_stream = None /\
  occurrences (cleaned_tokens overflowing_stream) "a" = S (Z.to_nat INT_MAX).
Proof. exact (count_words_overflows (Z.to_nat INT_MAX) INT_MAX_as_nat). Qed.

(** ** [maxinfo_selector] *)

Lemma In_firstn {A : Type} (n : nat) (l : list A) (a : A) :
  In a (firstn n l) -> In a l.
Proof.
  intros I. rewrite <- (firstn_skipn n l). apply in_or_app. now left.
Qed.

Lemma In_skipn {A : Type} (n : nat) (l : list A) (a : A) :
  In a (skipn n l) -> In a l.
Proof.
  intros I. rewrite <- (firstn_skipn n l). apply in_or_app. now right.
Qed.

Section SortFacts.
Context {A : Type} (comp : A -> A -> bool).
Hypothesis comp_order : strict_weak_order comp.

Lemma comp_asym (a b : A) : comp a b = true -> comp b a = false.
Proof.
  destruct comp_order as (Irr & Tr & _). intros L.
  destruct (comp b a) eqn:G; [|reflexivity].
  pose proof (Tr _ _ _ L G) as C. rewrite Irr in C. discriminate.
Qed.

(** An element that is not before a second one, which is not before a
    third, is not before the third. *)
Lemma comp_neg_trans (a b c : A) :
  comp a b = false -> comp b c = false -> comp a c = false.
Proof.
  destruct comp_order as (Irr & Tr & Eq). intros Nab Nbc.
  destruct (comp a c) eqn:Lac; [|reflexivity]. exfalso.
  destruct (comp b a) eqn:Lba.
  - rewrite (Tr _ _ _ Lba Lac) in Nbc. discriminate.
  - destruct (comp c b) eqn:Lcb.
    + rewrite (Tr _ _ _ Lac Lcb) in Nab. discriminate.
    + destruct (Eq a b c Nab Lba Nbc Lcb) as (C & _). congruence.
Qed.

Lemma insert_behind_perm (x : A) (l : list A) :
  Permutation (x :: l) (insert_behind comp x l).
Proof.
  induction l as [|y l IH]; simpl; [reflexivity|].
  destruct (comp x y); [reflexivity|].
  rewrite perm_swap. now apply perm_skip.
Qed.

Lemma insert_before_perm (x : A) (l : list A) :
  Permutation (x :: l) (insert_before comp x l).
Proof.
  induction l as [|y l IH]; simpl; [reflexivity|].
  destruct (comp y x); [|reflexivity].
  rewrite perm_swap. now apply perm_skip.
Qed.

Lemma insert_behind_sorted (x : A) (l : list A) :
  sorted_by comp l -> sorted_by comp (insert_behind comp x l).
Proof.
  destruct comp_order as (Irr & Tr & _).
  induction l as [|y l IH]; simpl; [auto|]. intros (F & S).
  destruct (comp x y) eqn:Lxy; simpl.
  - split; [|auto]. constructor; [now apply comp_asym|].
    rewrite Forall_forall in *. intros b I.
    destruct (comp b x) eqn:Lbx; [|reflexivity].
    rewrite <- (F b I). symmetry. now apply Tr with x.
  - split; [|auto].
    apply (Permutation_Forall (insert_behind_perm x l)). now constructor.
Qed.

Lemma insert_before_sorted (x : A) (l : list A) :
  sorted_by comp l -> sorted_by comp (insert_before comp x l).
Proof.
  induction l as [|y l IH]; simpl; [auto|]. intros (F & S).
  destruct (comp y x) eqn:Lyx; simpl.
  - split; [|auto].
    apply (Permutation_Forall (insert_before_perm x l)).
    constructor; [now apply comp_asym|exact F].
  - split; [|auto]. constructor; [exact Lyx|].
    rewrite Forall_forall in *. intros b I.
    apply comp_neg_trans with y; auto.
Qed.

Lemma sorted_by_firstn (n : nat) (l : list A) :
  sorted_by comp l -> sorted_by comp (firstn n l).
Proof.
  revert n. induction l as [|a l IH]; intros [|n]; simpl; auto.
  intros (F & S). split; [|auto].
  rewrite Forall_forall in *. intros b I. apply F.
  now apply (In_firstn n).
Qed.

(** In a sorted sequence no element behind the first [n] is before any of
    the first [n]. *)
Lemma sorted_by_firstn_skipn (n : nat) (l : list A) (a b : A) :
  sorted_by comp l -> In a (firstn n l) -> In b (skipn n l) ->
  comp b a = false.
Proof.
  revert n. induction l as [|c l IH]; intros [|n]; simpl; try contradiction.
  intros (F & S) [->|Ia] Ib.
  - rewrite Forall_forall in F. apply F. now apply (In_skipn n).
  - now apply (IH n).
Qed.

(** A sequence in which any two different elements are ordered has one
    sorted arrangement only. *)
Lemma sorted_by_unique (l1 l2 : list A) :
  (forall a b, In a l1 -> In b l1 ->
               comp a b = false -> comp b a = false -> a = b) ->
  Permutation l1 l2 -> sorted_by comp l1 -> sorted_by comp l2 -> l1 = l2.
Proof.
  revert l2. induction l1 as [|a l1 IH]; intros l2 T P S1 S2.
  - apply Permutation_nil in P. now subst.
  - destruct l2 as [|b l2].
    { symmetry in P. now apply Permutation_nil in P. }
    simpl in S1, S2. destruct S1 as (F1 & S1), S2 as (F2 & S2).
    rewrite Forall_forall in F1, F2.
    assert (E : a = b).
    { assert (Ia : In a (b :: l2)) by (apply (Permutation_in _ P); now left).
      assert (Ib : In b (a :: l1))
        by (apply (Permutation_in _ (Permutation_sym P)); now left).
      destruct Ia as [E|Ia]; [now symmetry|].
      destruct Ib as [E|Ib]; [exact E|].
      apply T; simpl; auto. }
    subst b. f_equal. apply IH; auto.
    + intros x y Ix Iy. apply T; now right.
    + now apply Permutation_cons_inv with a.
Qed.

End SortFacts.

Lemma stable_insertion_sort_contract : std_sort_contract stable_insertion_sort.
Proof.
  intros A comp l O. unfold stable_insertion_sort.
  induction l as [|x l (P & S)]; simpl; [split; [constructor|exact I]|].
  split.
  - rewrite <- insert_before_perm. now apply perm_skip.
  - now apply insert_before_sorted.
Qed.

Lemma reversing_insertion_sort_contract :
  std_sort_contract reversing_insertion_sort.
Proof.
  intros A comp l O. unfold reversing_insertion_sort.
  induction l as [|x l (P & S)]; simpl; [split; [constructor|exact I]|].
  split.
  - rewrite <- insert_behind_perm. now apply perm_skip.
  - now apply insert_behind_sorted.
Qed.

Lemma Z_gtb_order : strict_weak_order Z.gtb.
Proof.
  repeat split; intros *; rewrite ?Z.gtb_ltb, ?Z.ltb_lt, ?Z.ltb_ge; lia.
Qed.

Section SelectorFacts.
Context {Key Info : Type} (info_gt : Info -> Info -> bool).
Context (std_sort : forall A : Type, (A -> A -> bool) -> list A -> list A).
Hypothesis info_order : strict_weak_order info_gt.
Hypothesis sort_ok : std_sort_contract std_sort.

Lemma by_info_desc_order : strict_weak_order (@by_info_desc Key Info info_gt).
Proof.
  destruct info_order as (Irr & Tr & Eq). unfold by_info_desc.
  split; [|split].
  - intros a. apply Irr.
  - intros a b c. apply Tr.
  - intros a b c. apply Eq.
Qed.

(** What [maxinfo_selector] returns with any [std::sort] that keeps the
    contract: min(cnt, size) entries of the tree, in descending order of
    info, none of them with an info below that of an entry left out; all
    entries when [cnt] is at least the size. *)
Lemma maxinfo_selector_spec (t : node Key Info) (cnt : nat) :
  let r := maxinfo_selector info_gt std_sort t cnt in
  List.length r = Nat.min cnt (List.length (to_vector t [])) /\
  sorted_by (by_info_desc info_gt) r /\
  (exists rest, Permutation (to_vector t []) (r ++ rest) /\
                forall x y, In x r -> In y rest ->
                            info_gt (snd y) (snd x) = false) /\
  ((List.length (to_vector t []) <= cnt)%nat ->
   Permutation (to_vector t []) r).
Proof.
  unfold maxinfo_selector.
  destruct (sort_ok _ (by_info_desc info_gt) (to_vector t [])
              by_info_desc_order) as (P & S).
  set (v := std_sort _ (by_info_desc info_gt) (to_vector t [])) in *.
  rewrite (Permutation_length P).
  destruct (Nat.ltb_spec cnt (List.length v)) as [Lt|Ge]; simpl.
  - split; [rewrite length_firstn; lia|].
    split; [apply sorted_by_firstn; auto using by_info_desc_order|].
    split; [|lia].
    exists (skipn cnt v). rewrite firstn_skipn. split; [exact P|].
    intros x y Ix Iy.
    apply (sorted_by_firstn_skipn (by_info_desc info_gt) cnt v x y S Ix Iy).
  - split; [lia|]. split; [exact S|]. split; [|auto].
    exists []. rewrite app_nil_r. split; [exact P|]. contradiction.
Qed.

End SelectorFacts.

(** The tree of [test_maxinfo_selector], {a:10, b:30, c:20, d:5}: with
    any [std::sort] that keeps the contract, [maxinfo_selector(tree, 2)] is
    [(b,30), (c,20)]. *)
Lemma maxinfo_selector_example
  (std_sort : forall A : Type, (A -> A -> bool) -> list A -> list A) :
  std_sort_contract std_sort ->
  exists t,
    run [op_insert "a"%string 10; op_insert "b"%string 30;
         op_insert "c"%string 20; op_insert "d"%string 5] nullptr = Some t /\
    maxinfo_selector Z.gtb std_sort t 2 = [("b"%string, 30); ("c"%string, 20)].
Proof.
  intros C. eexists. split; [vm_compute; reflexivity|].
  unfold maxinfo_selector.
  set (v := [("a"%string, 10); ("b"%string, 30); ("c"%string, 20);
             ("d"%string, 5)]).
  change (to_vector _ []) with v.
  destruct (C _ (by_info_desc Z.gtb) v (by_info_desc_order Z.gtb Z_gtb_order))
    as (P & S).
  assert (E : std_sort _ (by_info_desc Z.gtb) v =
              [("b"%string, 30); ("c"%string, 20); ("a"%string, 10);
               ("d"%string, 5)]).
  { symmetry.
    apply (sorted_by_unique (by_info_desc Z.gtb)).
    - intros a b Ia Ib. simpl in Ia, Ib.
      repeat (destruct Ia as [<-|Ia]; [|]); try contradiction;
        repeat (destruct Ib as [<-|Ib]; [|]); try contradiction;
        vm_compute; congruence.
    - rewrite <- P. unfold v.
      rewrite (perm_swap ("b"%string, 30) ("a"%string, 10)).
      apply perm_skip. apply perm_swap.
    - simpl. repeat constructor.
    - exact S. }
  rewrite E. reflexivity.
Qed.

(** C2: the order of entries with equal infos is not the in-order one with
    every [std::sort].  The tree holds the keys 1 to 17, all with info 0,
    so that a stable sort leaves the entries in key order and the first two
    are (1,0) and (2,0); with a sorting procedure that keeps the contract
    of [std::sort] and reverses equivalent elements,
    [maxinfo_selector(tree, 2)] is (17,0), (16,0). *)
Theorem maxinfo_selector_ties_unordered :
  std_sort_contract reversing_insertion_sort /\
  exists t : node Z Z,
    run (map (fun k => op_insert k 0)
           [1; 2; 3; 4; 5; 6; 7; 8; 9; 10; 11; 12; 13; 14; 15; 16; 17])
      nullptr = Some t /\
    firstn 2 (stable_insertion_sort _ (by_info_desc Z.gtb) (to_vector t []))
      = [(1, 0); (2, 0)] /\
    maxinfo_selector Z.gtb reversing_insertion_sort t 2 = [(17, 0); (16, 0)].
Proof.
  split; [exact reversing_insertion_sort_contract|].
  eexists. split; [vm_compute; reflexivity|].
  split; vm_compute; reflexivity.
Qed.

(** ** Instances of the general statements *)

Lemma rotated_tree_avl : avl rotated_tree.
Proof. simpl. repeat split; lia. Qed.

Lemma rotated_tree_bst : bst rotated_tree.
Proof. vm_compute. repeat split. Qed.

Lemma insert_remove_invariants_witness :
  exists t : node Z Z,
    run [op_insert 10 10; op_insert 5 5; op_insert 15 15; op_insert 2 2;
         op_remove 2; op_remove 10] nullptr = Some t /\
    ascending (map fst (to_vector t [])) /\
    heights_cached t /\
    balanced t.
Proof.
  exact (insert_remove_invariants
           [op_insert 10 10; op_insert 5 5; op_insert 15 15; op_insert 2 2;
            op_remove 2; op_remove 10]).
Defined.

Lemma insert_existing_key_witness :
  avl rotated_tree /\ bst rotated_tree /\ In 3 (keys rotated_tree) /\
  exists t' : node Z Z,
    insert rotated_tree 3 7 = Some t' /\
    size t' = size rotated_tree /\
    keys t' = keys rotated_tree /\
    NoDup (keys t') /\
    forall out, search t' 3 out = (true, 7, t').
Proof.
  assert (I : In 3 (keys rotated_tree)) by (simpl; auto).
  split; [exact rotated_tree_avl|]. split; [exact rotated_tree_bst|].
  split; [exact I|].
  exact (insert_existing_key rotated_tree 3 7
           rotated_tree_avl rotated_tree_bst I).
Defined.

Lemma remove_then_search_witness :
  avl rotated_tree /\ bst rotated_tree /\ In 1 (keys rotated_tree) /\
  exists t' : node Z Z,
    remove rotated_tree 1 = Some t' /\
    (forall out, search t' 1 out = (false, out, t')) /\
    (forall key' i out,
        key' <> 1 -> In (key', i) (to_vector rotated_tree []) ->
        search t' key' out = (true, i, t')).
Proof.
  assert (I : In 1 (keys rotated_tree)) by (simpl; auto).
  split; [exact rotated_tree_avl|]. split; [exact rotated_tree_bst|].
  split; [exact I|].
  exact (remove_then_search rotated_tree 1
           rotated_tree_avl rotated_tree_bst I).
Defined.

Lemma rotated_tree_without_5 : ~ In 5 (keys rotated_tree).
Proof. simpl. intuition discriminate. Qed.

Lemma remove_absent_key_witness :
  avl rotated_tree /\ ~ In 5 (keys rotated_tree) /\
  remove rotated_tree 5 = Some rotated_tree /\
  remove (@nullptr Z Z) 5 = Some nullptr.
Proof.
  split; [exact rotated_tree_avl|]. split; [exact rotated_tree_without_5|].
  exact (remove_absent_key rotated_tree 5
           rotated_tree_avl rotated_tree_without_5).
Defined.

Lemma search_absent_key_witness :
  ~ In 5 (keys rotated_tree) /\
  search rotated_tree 5 42 = (false, 42, rotated_tree).
Proof.
  split; [exact rotated_tree_without_5|].
  exact (search_absent_key rotated_tree 5 42 rotated_tree_without_5).
Defined.

Lemma index_const_absent_key_witness :
  ~ In 5 (keys rotated_tree) /\
  index_const 0 rotated_tree 5 = (0, rotated_tree).
Proof.
  split; [exact rotated_tree_without_5|].
  exact (index_const_absent_key 0 rotated_tree 5 rotated_tree_without_5).
Defined.

Lemma index_returns_reference_witness :
  avl rotated_tree /\ bst rotated_tree /\
  exists (t' : node Z Z) (i : Z),
    index 0 rotated_tree 5 = Some (t', i) /\
    find t' 5 = Some i /\
    In 5 (keys t') /\
    (forall i0, find rotated_tree 5 = Some i0 -> t' = rotated_tree /\ i = i0) /\
    (find rotated_tree 5 = None ->
     insert rotated_tree 5 0 = Some t' /\ i = 0) /\
    (forall v key',
        find (assign t' 5 v) key' =
        if key_eq key' 5 then Some v else find t' key').
Proof.
  split; [exact rotated_tree_avl|]. split; [exact rotated_tree_bst|].
  exact (index_returns_reference 0 rotated_tree 5
           rotated_tree_avl rotated_tree_bst).
Defined.

Lemma hello_counts_in_range (w : string) :
  Z.of_nat (occurrences (cleaned_tokens "Hello HELLO hello") w) <= INT_MAX.
Proof.
  unfold occurrences.
  pose proof (count_occ_bound string_dec w (cleaned_tokens "Hello HELLO hello"))
    as B.
  change (List.length (cleaned_tokens "Hello HELLO hello")) with 3%nat in B.
  unfold INT_MAX. lia.
Qed.

Lemma count_words_counts_witness :
  (forall w,
      Z.of_nat (occurrences (cleaned_tokens "Hello HELLO hello") w) <= INT_MAX) /\
  exists t,
    count_words "Hello HELLO hello" = Some t /\ avl t /\ bst t /\
    forall w,
      find t w =
      stored_count (occurrences (cleaned_tokens "Hello HELLO hello") w).
Proof.
  split; [exact hello_counts_in_range|].
  exact (proj1 count_words_counts "Hello HELLO hello"%string hello_counts_in_range).
Defined.

(** ** The unit tests of the repository, on the model *)

(** [test_update_existing] *)
Example test_update_existing :
  exists t t1 i1 t2 i2,
    run [op_insert 1 100; op_insert 1 200] (@nullptr Z Z) = Some t /\
    index 0 t 1 = Some (t1, i1) /\ i1 = 200 /\
    index 0 (assign t1 1 300) 1 = Some (t2, i2) /\ i2 = 300.
Proof. do 5 eexists. repeat split; reflexivity. Qed.

(** [test_remove] *)
Example test_remove :
  exists t1 t2,
    run [op_insert 10 10; op_insert 5 5; op_insert 15 15; op_insert 2 2;
         op_remove 2] (@nullptr Z Z) = Some t1 /\
    fst (fst (search t1 2 0)) = false /\
    remove t1 10 = Some t2 /\
    fst (fst (search t2 10 0)) = false /\
    fst (fst (search t2 5 0)) = true /\
    fst (fst (search t2 15 0)) = true /\
    to_vector t2 [] = [(5, 5); (15, 15)].
Proof. do 2 eexists. repeat split; reflexivity. Qed.

(** [test_empty_edge_cases] *)
Example test_empty_edge_cases :
  remove (@nullptr Z Z) 5 = Some nullptr /\
  fst (fst (search (@nullptr Z Z) 10 0)) = false /\
  exists t i, index 0 (@nullptr Z Z) 100 = Some (t, i) /\
              index_const 0 (assign t 100 50) 100 = (50, assign t 100 50).
Proof. repeat split. do 2 eexists. split; reflexivity. Qed.

(** [test_other_functions] *)
Example test_other_functions :
  empty (@nullptr Z Z) = true /\ size (@nullptr Z Z) = 0 /\
  exists t, run [op_insert 1 100; op_insert 2 200] (@nullptr Z Z) = Some t /\
            empty t = false /\ size t = 2.
Proof. repeat split. eexists. repeat split; reflexivity. Qed.

(** [test_stress_insert_remove]: a thousand keys go in, the even ones go
    out, and the odd ones are left in ascending order. *)
Example test_stress_insert_remove :
  exists t,
    run (map (fun n => op_insert (Z.of_nat n) (Z.of_nat n * 2)) (seq 0 1000) ++
         map (fun n => op_remove (Z.of_nat (2 * n))) (seq 0 500))
      (@nullptr Z Z) = Some t /\
    size t = 500 /\
    to_vector t [] =
    map (fun n => (Z.of_nat (2 * n + 1), Z.of_nat (2 * n + 1) * 2)) (seq 0 500).
Proof. eexists. split; [vm_compute; reflexivity|]. split; vm_compute; reflexivity. Qed.

(** [test_count_words_different_words], [test_count_words_numbers] and
    [test_count_words_mixed_whitespace] *)
Example test_count_words :
  option_map entries (count_words "apple banana apple cherry banana apple")
    = Some [("apple"%string, 3); ("banana"%string, 2); ("cherry"%string, 1)] /\
  option_map entries (count_words "test123 456test test123 789")
    = Some [("456test"%string, 1); ("789"%string, 1); ("test123"%string, 2)] /\
  option_map entries
    (count_words (String " " (String " " ("one  two" ++ String "010" ("three"
       ++ String "009" ("one" ++ String "010" (String "010" "four  ")))))))
    = Some [("four"%string, 1); ("one"%string, 2); ("three"%string, 1);
            ("two"%string, 1)] /\
  count_words "!!! ??? ... ,,, ---" = Some nullptr /\
  count_words "" = Some nullptr.
Proof. repeat split; vm_compute; reflexivity. Qed.

(** * Further properties of the tree operations *)

(** ** Lists with ascending keys are determined by their lookups *)

Section MoreListFacts.
Context {Key Info : Type} `{KeyOrder Key}.

Local Abbreviation alist := (list (Key * Info)).

Lemma ascending_lookup_ext (l1 l2 : alist) :
  ascending (map fst l1) -> ascending (map fst l2) ->
  (forall key, lookup l1 key = lookup l2 key) -> l1 = l2.
Proof.
  revert l2. induction l1 as [|(a, x) l1 IH]; intros [|(b, y) l2] A1 A2 E.
  - reflexivity.
  - specialize (E b). simpl in E. rewrite key_eq_refl in E. discriminate.
  - specialize (E a). simpl in E. rewrite key_eq_refl in E. discriminate.
  - simpl map in A1, A2. rewrite ascending_cons in A1, A2.
    destruct A1 as (F1 & A1), A2 as (F2 & A2).
    assert (Eab : a = b).
    { destruct (key_lt a b) eqn:Lab; [|destruct (key_lt b a) eqn:Lba].
      - exfalso. pose proof (E a) as Ea. simpl in Ea.
        rewrite key_eq_refl in Ea.
        rewrite (proj2 (key_eq_false a b) (key_lt_neq _ _ Lab)) in Ea.
        assert (I : In a (map fst l2)) by (apply lookup_In; eauto).
        rewrite Forall_forall in F2. specialize (F2 a I).
        rewrite (key_lt_asym _ _ Lab) in F2. discriminate.
      - exfalso. pose proof (E b) as Eb. simpl in Eb.
        rewrite key_eq_refl in Eb.
        rewrite (proj2 (key_eq_false b a) (key_lt_neq _ _ Lba)) in Eb.
        assert (I : In b (map fst l1)) by (apply lookup_In; eauto).
        rewrite Forall_forall in F1. specialize (F1 b I).
        rewrite (key_lt_asym _ _ Lba) in F1. discriminate.
      - now apply key_lt_total. }
    subst b.
    assert (Exy : x = y).
    { specialize (E a). simpl in E. rewrite key_eq_refl in E. congruence. }
    subst y. f_equal. apply IH; auto.
    intros key. specialize (E key). simpl in E.
    destruct (key_cases key a) as [_ Ne|Eq|_ Ne]; auto.
    subst key.
    rewrite !lookup_not_In by now apply above_not_In. reflexivity.
Qed.

Lemma del_list_filter (l : alist) (key : Key) :
  ascending (map fst l) ->
  del_list l key = filter (fun p => negb (key_eq key (fst p))) l.
Proof.
  induction l as [|(a, x) l IH]; [reflexivity|].
  simpl map. rewrite ascending_cons. intros (F & A). simpl.
  destruct (key_cases key a) as [_ Ne|E|_ Ne]; simpl.
  - now rewrite IH.
  - subst a. rewrite <- IH by assumption. symmetry.
    apply del_list_not_In. now apply above_not_In.
  - now rewrite IH.
Qed.

End MoreListFacts.

Section MoreTreeFacts.
Context {Key Info : Type} `{KeyOrder Key}.

Local Abbreviation tree := (node Key Info).

(** Two search trees in which [find] gives the same answers hold the same
    entries. *)
Lemma bst_find_ext (t1 t2 : tree) :
  bst t1 -> bst t2 -> (forall key, find t1 key = find t2 key) ->
  entries t1 = entries t2.
Proof.
  intros B1 B2 E. apply ascending_lookup_ext; auto.
  intros key. rewrite <- !find_lookup by assumption. apply E.
Qed.

Lemma find_insert (t t' : tree) key info key' :
  bst t -> insert t key info = Some t' ->
  find t' key' = if key_eq key' key then Some info else find t key'.
Proof.
  intros B E.
  rewrite find_lookup by now apply insert_bst with t key info.
  rewrite (insert_entries t t' key info B E), lookup_ins_list.
  now rewrite <- find_lookup by assumption.
Qed.

Lemma find_remove (t t' : tree) key key' :
  bst t -> remove t key = Some t' ->
  find t' key' = if key_eq key' key then None else find t key'.
Proof.
  intros B E.
  rewrite find_lookup by now apply remove_bst with t key.
  rewrite (remove_entries t t' key B E), lookup_del_list by assumption.
  now rewrite <- find_lookup by assumption.
Qed.

(** X1: [insert] into a tree that satisfies the invariants returns a tree
    that satisfies them, in which the key has the given info and every
    other key has what [find] gave before; with a new key the in-order
    sequence is one entry longer. *)
Theorem insert_then_find (t : tree) (key : Key) (info : Info) :
  avl t -> bst t ->
  exists t' : tree,
    insert t key info = Some t' /\ avl t' /\ bst t' /\
    (forall key',
        find t' key' = if key_eq key' key then Some info else find t key') /\
    (~ In key (keys t) ->
     List.length (to_vector t' []) = S (List.length (to_vector t []))).
Proof.
  intros A B.
  destruct (insert_avl t key info A) as (t' & E & A' & _).
  exists t'. split; [exact E|]. split; [exact A'|].
  split; [now apply insert_bst with t key info|]. split.
  - intros key'. now apply find_insert.
  - intros N. fold (entries t') (entries t).
    rewrite (insert_entries t t' key info B E).
    apply ins_list_absent_length. exact N.
Qed.

(** X2: [remove] from a tree that satisfies the invariants returns a tree
    that satisfies them, whose in-order sequence is the old one without
    the entry of the key; when the key was there it is one entry
    shorter. *)
Theorem remove_contents (t : tree) (key : Key) :
  avl t -> bst t ->
  exists t' : tree,
    remove t key = Some t' /\ avl t' /\ bst t' /\
    to_vector t' [] =
      filter (fun p => negb (key_eq key (fst p))) (to_vector t []) /\
    (In key (keys t) ->
     S (List.length (to_vector t' [])) = List.length (to_vector t [])).
Proof.
  intros A B.
  destruct (remove_avl t key A) as (t' & E & A' & _).
  pose proof (remove_entries t t' key B E) as Ent.
  exists t'. split; [exact E|]. split; [exact A'|].
  split; [now apply remove_bst with t key|].
  fold (entries t') (entries t). rewrite Ent. split.
  - now apply del_list_filter.
  - intros I. now apply del_list_present_length.
Qed.

(** X3: inserting a key that the tree does not hold and removing it again
    gives back the in-order sequence of the tree. *)
Theorem insert_remove_round_trip (t : tree) (key : Key) (info : Info) :
  avl t -> bst t -> ~ In key (keys t) ->
  exists t1 t2 : tree,
    insert t key info = Some t1 /\
    remove t1 key = Some t2 /\
    to_vector t2 [] = to_vector t [].
Proof.
  intros A B N.
  destruct (insert_avl t key info A) as (t1 & E1 & A1 & _).
  pose proof (insert_bst t t1 key info B E1) as B1.
  destruct (remove_avl t1 key A1) as (t2 & E2 & A2 & _).
  pose proof (remove_bst t1 t2 key B1 E2) as B2.
  exists t1, t2. split; [exact E1|]. split; [exact E2|].
  apply bst_find_ext; auto. intros key'.
  rewrite (find_remove t1 t2 key key' B1 E2).
  rewrite (find_insert t t1 key info key' B E1).
  destruct (key_eq key' key) eqn:Eq; [|reflexivity].
  apply key_eq_iff in Eq. subst key'. symmetry. now apply find_not_In.
Qed.

(** X4: insertions of two different keys give the same in-order sequence
    in either order. *)
Theorem insert_insert_commute (t : tree) (k1 k2 : Key) (i1 i2 : Info) :
  avl t -> bst t -> k1 <> k2 ->
  exists a a' b b' : tree,
    insert t k1 i1 = Some a /\ insert a k2 i2 = Some a' /\
    insert t k2 i2 = Some b /\ insert b k1 i1 = Some b' /\
    to_vector a' [] = to_vector b' [].
Proof.
  intros A B Ne.
  destruct (insert_avl t k1 i1 A) as (a & Ea & Aa & _).
  pose proof (insert_bst t a k1 i1 B Ea) as Ba.
  destruct (insert_avl a k2 i2 Aa) as (a' & Ea' & _).
  pose proof (insert_bst a a' k2 i2 Ba Ea') as Ba'.
  destruct (insert_avl t k2 i2 A) as (b & Eb & Ab & _).
  pose proof (insert_bst t b k2 i2 B Eb) as Bb.
  destruct (insert_avl b k1 i1 Ab) as (b' & Eb' & _).
  pose proof (insert_bst b b' k1 i1 Bb Eb') as Bb'.
  exists a, a', b, b'. repeat (split; [assumption|]).
  apply bst_find_ext; auto. intros key.
  rewrite (find_insert a a' k2 i2 key Ba Ea').
  rewrite (find_insert t a k1 i1 key B Ea).
  rewrite (find_insert b b' k1 i1 key Bb Eb').
  rewrite (find_insert t b k2 i2 key B Eb).
  destruct (key_eq key k1) eqn:E1, (key_eq key k2) eqn:E2; try reflexivity.
  apply key_eq_iff in E1, E2. congruence.
Qed.

(** X5: in a search tree [search] returns true and hands back an info
    exactly when the key stands with that info in the sequence that
    [to_vector] produces. *)
Theorem search_agrees_with_to_vector (t : tree) (key : Key) (i out : Info) :
  bst t ->
  (fst (search t key out) = (true, i) <-> In (key, i) (to_vector t [])).
Proof.
  intros B. fold (entries t). rewrite <- (lookup_In_pair (entries t) key i B).
  rewrite <- find_lookup by assumption. unfold search.
  destruct (find t key) as [i0|]; simpl; split; intros E; try discriminate.
  - injection E as ->. reflexivity.
  - injection E as ->. reflexivity.
Qed.

End MoreTreeFacts.

Section StructureFacts.
Context {Key Info : Type} `{KeyOrder Key}.

Local Abbreviation tree := (node Key Info).

(** X6: [to_vector] keeps what the caller's vector holds and appends the
    in-order sequence of the tree to it, so that a second call on the same
    vector appends the sequence a second time. *)
Theorem to_vector_appends (t : tree) (vec : list (Key * Info)) :
  to_vector t vec = vec ++ to_vector t [] /\
  to_vector t (to_vector t vec) = vec ++ to_vector t [] ++ to_vector t [].
Proof.
  fold (entries t). split.
  - apply to_vector_app.
  - rewrite !to_vector_app. now rewrite app_assoc.
Qed.

(** X7: [min_node] dereferences a null pointer only when called on one; on
    a search tree the node it returns holds the first entry of the
    in-order sequence, whose key is below every other key of the tree. *)
Theorem min_node_smallest (t : tree) :
  bst t ->
  (min_node t = None <-> t = nullptr) /\
  (forall k i,
      min_node t = Some (k, i) ->
      (exists rest, to_vector t [] = (k, i) :: rest) /\
      (forall k', In k' (keys t) -> k' <> k -> key_lt k k' = true)).
Proof.
  intros B. split.
  - split.
    + intros E. destruct t as [|k i l r h]; [reflexivity|].
      destruct (min_node_Some (Node k i l r h)) as (p & P); [discriminate|].
      congruence.
    + intros ->. reflexivity.
  - intros k i E. destruct (min_node_entries t (k, i) E) as (rest & R).
    split; [exists rest; exact R|].
    unfold bst, keys in *. rewrite R in *. simpl map in *.
    rewrite ascending_cons in B. destruct B as (F & _).
    rewrite Forall_forall in F.
    intros k' [E'|I] Ne; [congruence|auto].
Qed.

(** X8: a rotation that finds the child it needs keeps the in-order
    sequence; on a node with correct cached heights it yields correct
    cached heights, and the opposite rotation undoes it. *)
Theorem rotations_are_inverse (n t : tree) :
  (rotate_right n = Some t ->
   to_vector t [] = to_vector n [] /\
   (heights_cached n -> heights_cached t /\ rotate_left t = Some n)) /\
  (rotate_left n = Some t ->
   to_vector t [] = to_vector n [] /\
   (heights_cached n -> heights_cached t /\ rotate_right t = Some n)).
Proof.
  split; intros E.
  - split; [now apply rotate_right_entries|].
    destruct n as [|yk yi [|xk xi xl T2 xh] yr yh]; simpl in E;
      try discriminate.
    injection E as <-. simpl. intros (-> & (-> & Hxl & HT2) & Hyr).
    repeat split; auto.
  - split; [now apply rotate_left_entries|].
    destruct n as [|xk xi xl [|yk yi T2 yr yh] xh]; simpl in E;
      try discriminate.
    injection E as <-. simpl. intros (-> & Hxl & (-> & HT2 & Hyr)).
    repeat split; auto.
Qed.

(** X9: [rebalance] of a node whose subtrees satisfy the height invariants
    and differ in height by at most two dereferences no null pointer and
    returns a tree that satisfies the invariants, with the same in-order
    sequence, as high as the higher subtree or one higher, on which a
    second [rebalance] changes nothing. *)
Theorem rebalance_restores_balance k i (l r : tree) h :
  avl l -> avl r -> -2 <= height l - height r <= 2 ->
  exists t : tree,
    rebalance (Node k i l r h) = Some t /\
    avl t /\
    to_vector t [] = to_vector l [] ++ (k, i) :: to_vector r [] /\
    Z.max (height l) (height r) <= height t
      <= Z.max (height l) (height r) + 1 /\
    rebalance t = Some t.
Proof.
  intros Al Ar B.
  destruct (rebalance_avl k i l r h Al Ar B) as (t & E & At & Ht & _).
  exists t. split; [exact E|]. split; [exact At|].
  split; [|split; [exact Ht|]].
  - fold (entries t) (entries l) (entries r).
    rewrite (rebalance_entries _ _ E). apply entries_Node.
  - apply rebalance_id; [exact At|].
    intros ->. simpl in Ht.
    pose proof (avl_height_nonneg l Al). pose proof (avl_height_nonneg r Ar).
    assert (Hl : height l = 0) by lia. assert (Hr : height r = 0) by lia.
    rewrite (avl_height_zero l Al), (avl_height_zero r Ar) in E by lia.
    discriminate.
Qed.

Lemma avl_height_depth (n : tree) : avl n -> height n = Z.of_nat (depth n).
Proof.
  induction n as [|k i l IHl r IHr h]; [reflexivity|]. simpl.
  intros (Al & Ar & -> & _). rewrite (IHl Al), (IHr Ar). lia.
Qed.

(** X10: after every sequence of insertions and removals from the empty
    tree, the cached height of the root is the number of nodes on the
    longest path down from it, and it is logarithmic in the number of
    entries: 2 ^ (height / 2) is at most the number of entries plus
    one. *)
Theorem reachable_height_logarithmic (ops : list (operation Key Info)) :
  exists t : tree,
    run ops nullptr = Some t /\
    height t = Z.of_nat (depth t) /\
    2 ^ (height t / 2) <= Z.of_nat (List.length (to_vector t [])) + 1.
Proof.
  destruct (run_invariants ops nullptr) as (t & E & A & _); try exact I.
  exists t. split; [exact E|]. split.
  - now apply avl_height_depth.
  - now apply avl_height_logarithmic.
Qed.

(** X11: on a tree that satisfies the height invariants an insertion
    leaves the height of the root as it is or raises it by one, and a
    removal leaves it as it is or lowers it by one. *)
Theorem height_changes_by_one (t : tree) (key : Key) (info : Info) :
  avl t ->
  (exists t', insert t key info = Some t' /\
              height t <= height t' <= height t + 1) /\
  (exists t', remove t key = Some t' /\
              height t - 1 <= height t' <= height t).
Proof.
  intros A. split.
  - destruct (insert_avl t key info A) as (t' & E & _ & Ht). eauto.
  - destruct (remove_avl t key A) as (t' & E & _ & Ht). eauto.
Qed.

(** X12: inserting an entry that the tree already holds, key and info,
    returns the very same tree. *)
Theorem insert_same_entry (t : tree) (key : Key) (info : Info) :
  avl t -> find t key = Some info -> insert t key info = Some t.
Proof.
  induction t as [|k i l IHl r IHr h]; [discriminate|].
  simpl. intros (Al & Ar & Eh & B).
  destruct (key_cases key k) as [_ Ne|E|_ Ne]; intros F.
  - rewrite (IHl Al F). simpl. rewrite Eh. now apply rebalance_balanced.
  - congruence.
  - rewrite (IHr Ar F). simpl. rewrite Eh. now apply rebalance_balanced.
Qed.

Section IndexFacts.
Variable info_default : Info.

(** X13: an assignment [tree[key] = v] leaves the tree with the same
    in-order sequence as [tree.insert(key, v)]. *)
Theorem index_assign_like_insert (t : tree) (key : Key) (v : Info) :
  avl t -> bst t ->
  exists (t1 : tree) (i : Info) (t2 : tree),
    index info_default t key = Some (t1, i) /\
    insert t key v = Some t2 /\
    to_vector (assign t1 key v) [] = to_vector t2 [].
Proof.
  intros A B.
  destruct (index_spec info_default t key A B)
    as (t1 & i & E1 & A1 & B1 & F1 & _ & _ & R).
  destruct (insert_avl t key v A) as (t2 & E2 & _).
  exists t1, i, t2. split; [exact E1|]. split; [exact E2|].
  apply bst_find_ext.
  - now apply assign_bst.
  - now apply insert_bst with t key v.
  - intros key'. rewrite find_assign, F1, (find_insert t t2 key v key' B E2).
    destruct (key_eq key' key) eqn:Eq; [reflexivity|].
    apply R. now apply key_eq_false.
Qed.

End IndexFacts.

End StructureFacts.

(** * Further properties of [count_words] and [maxinfo_selector] *)

(** ** Extraction of a word *)

Lemma skip_ws_split (stream : string) :
  exists ws,
    stream = (ws ++ skip_ws stream)%string /\
    forallb isspace (list_ascii_of_string ws) = true.
Proof.
  induction stream as [|c rest (ws & E & W)].
  - exists EmptyString. auto.
  - simpl. destruct (isspace c) eqn:S.
    + exists (String c ws). simpl. rewrite S, W. split; [congruence|reflexivity].
    + exists EmptyString. auto.
Qed.

Lemma skip_ws_head (stream : string) :
  skip_ws stream = EmptyString \/
  exists c rest, skip_ws stream = String c rest /\ isspace c = false.
Proof.
  induction stream as [|c rest IH]; [now left|]. simpl.
  destruct (isspace c) eqn:S; [exact IH|]. right. eauto.
Qed.

Lemma take_word_split (text : string) :
  text = (fst (take_word text) ++ snd (take_word text))%string /\
  forallb (fun c => negb (isspace c))
    (list_ascii_of_string (fst (take_word text))) = true /\
  (snd (take_word text) = EmptyString \/
   exists c rest, snd (take_word text) = String c rest /\ isspace c = true).
Proof.
  induction text as [|c rest (E & W & R)]; simpl.
  - auto.
  - destruct (isspace c) eqn:S; simpl.
    + split; [reflexivity|]. split; [reflexivity|]. right. eauto.
    + destruct (take_word rest) as (w, stream'). simpl in *.
      rewrite S, W. split; [congruence|]. auto.
Qed.

(** X14: [is >> word] fails exactly on a stream of whitespace only.  When
    it succeeds the stream was some whitespace, then the word, then what
    is left of the stream; the word is not empty and holds no whitespace,
    and what is left is empty or begins with whitespace. *)
Theorem extract_word (stream : string) :
  match extract stream with
  | None => forallb isspace (list_ascii_of_string stream) = true
  | Some (word, stream') =>
      word <> EmptyString /\
      forallb (fun c => negb (isspace c)) (list_ascii_of_string word) = true /\
      (exists ws, forallb isspace (list_ascii_of_string ws) = true /\
                  stream = (ws ++ word ++ stream')%string) /\
      (stream' = EmptyString \/
       exists c rest, stream' = String c rest /\ isspace c = true)
  end.
Proof.
  unfold extract.
  destruct (skip_ws_split stream) as (ws & E & W).
  destruct (take_word_split (skip_ws stream)) as (E' & W' & R).
  pose proof (skip_ws_head stream) as Hd.
  destruct (take_word (skip_ws stream)) as (word, stream') eqn:T.
  simpl in E', W', R.
  destruct word as [|c word].
  - destruct Hd as [Hd|(c & rest & Hd & S)].
    + rewrite Hd, string_app_nil in E. now rewrite E.
    + rewrite Hd in T. simpl in T. rewrite S in T.
      destruct (take_word rest). discriminate.
  - split; [discriminate|]. split; [exact W'|]. split; [|exact R].
    exists ws. split; [exact W|]. now rewrite <- E'.
Qed.

(** ** Cleaned words *)

Lemma tolower_isalnum (c : ascii) :
  isalnum c = true ->
  (char_in 48 57 (tolower c) || char_in 97 122 (tolower c))%bool = true.
Proof.
  destruct c as [[|] [|] [|] [|] [|] [|] [|] [|]]; vm_compute;
    intros E; try reflexivity; discriminate E.
Qed.

Lemma lower_digit_fixed (c : ascii) :
  (char_in 48 57 c || char_in 97 122 c)%bool = true ->
  isalnum c = true /\ tolower c = c.
Proof.
  destruct c as [[|] [|] [|] [|] [|] [|] [|] [|]]; vm_compute;
    intros E; try discriminate E; split; reflexivity.
Qed.

(** X15: a cleaned word consists of digits and lower-case letters only,
    and cleaning it again changes nothing. *)
Theorem clean_lower_alnum (word : string) :
  forallb (fun c => (char_in 48 57 c || char_in 97 122 c)%bool)
    (list_ascii_of_string (clean word)) = true /\
  clean (clean word) = clean word.
Proof.
  induction word as [|c word (F & I)]; [split; reflexivity|]. simpl.
  destruct (isalnum c) eqn:Al; [|auto].
  pose proof (tolower_isalnum c Al) as L.
  destruct (lower_digit_fixed _ L) as (Al' & Lo).
  simpl. rewrite L, F, Al', Lo, I. auto.
Qed.

(** ** The tree of [count_words] *)

Lemma count_words_spec (stream : string) :
  (forall w, Z.of_nat (occurrences (cleaned_tokens stream) w) <= INT_MAX) ->
  exists t,
    count_words stream = Some t /\ avl t /\ bst t /\
    forall w, find t w = stored_count (occurrences (cleaned_tokens stream) w).
Proof.
  intros Le. unfold count_words.
  rewrite count_words_loop_tokens by lia.
  apply (count_tokens_spec (tokens stream) nullptr []); auto.
  - exact I.
  - exact I.
Qed.

Lemma map_snd_by_key {K V : Type} (f : K -> V) (l : list (K * V)) :
  (forall k v, In (k, v) l -> v = f k) -> map snd l = map f (map fst l).
Proof.
  induction l as [|(k, v) l IH]; [reflexivity|]. intros P. simpl.
  rewrite (P k v) by now left. f_equal. apply IH.
  intros k' v' I. apply P. now right.
Qed.

Lemma sum_indicator (x : string) (ks : list string) :
  NoDup ks -> In x ks ->
  fold_right Z.add 0
    (map (fun k => if string_dec x k then 1 else 0) ks) = 1.
Proof.
  induction 1 as [|k ks N _ IH]; [contradiction|]. simpl.
  destruct (string_dec x k) as [->|Ne].
  - intros _. assert (Z : fold_right Z.add 0
        (map (fun k0 => if string_dec k k0 then 1 else 0) ks) = 0).
    { clear IH. induction ks as [|k' ks IH]; [reflexivity|]. simpl.
      destruct (string_dec k k') as [->|_].
      - exfalso. apply N. now left.
      - rewrite IH; [reflexivity|]. intros I. apply N. now right. }
    lia.
  - intros [E|I]; [congruence|]. rewrite (IH I). reflexivity.
Qed.

Lemma sum_occurrences (l ks : list string) :
  NoDup ks -> (forall w, In w l -> In w ks) ->
  fold_right Z.add 0 (map (fun k => Z.of_nat (occurrences l k)) ks) =
  Z.of_nat (List.length l).
Proof.
  intros N. induction l as [|x l IH]; intros S.
  - simpl. induction ks as [|k ks IHk]; [reflexivity|]. simpl.
    rewrite IHk; [reflexivity|now inversion N|contradiction].
  - assert (E : forall ks',
        fold_right Z.add 0
          (map (fun k => Z.of_nat (occurrences (x :: l) k)) ks') =
        fold_right Z.add 0 (map (fun k => Z.of_nat (occurrences l k)) ks') +
        fold_right Z.add 0
          (map (fun k => if string_dec x k then 1 else 0) ks')).
    { induction ks' as [|k ks' IHk]; [reflexivity|].
      cbn [map fold_right]. rewrite IHk. unfold occurrences at 1.
      cbn [count_occ]. fold (occurrences l k).
      destruct (string_dec x k); lia. }
    rewrite E, IH, sum_indicator; auto.
    + simpl List.length. lia.
    + apply S. now left.
    + intros w I. apply S. now right.
Qed.

(** X16: as long as no count leaves the range of [int], the keys of the
    tree that [count_words] returns are exactly the non-empty cleaned
    tokens of the stream, one entry for each different one, and the counts
    add up to the number of non-empty cleaned tokens. *)
Theorem count_words_keys (stream : string) :
  (forall w, Z.of_nat (occurrences (cleaned_tokens stream) w) <= INT_MAX) ->
  exists t,
    count_words stream = Some t /\
    (forall w, In w (keys t) <-> In w (cleaned_tokens stream)) /\
    (forall w, In w (keys t) ->
               w <> EmptyString /\
               exists token, In token (tokens stream) /\ w = clean token) /\
    List.length (to_vector t []) =
      List.length (nodup string_dec (cleaned_tokens stream)) /\
    fold_right Z.add 0 (map snd (to_vector t [])) =
      Z.of_nat (List.length (cleaned_tokens stream)).
Proof.
  intros Le. destruct (count_words_spec stream Le) as (t & E & A & B & F).
  assert (K : forall w, In w (keys t) <-> In w (cleaned_tokens stream)).
  { intros w. rewrite (find_In t w B), F.
    rewrite (count_occ_In string_dec). unfold occurrences.
    destruct (count_occ string_dec (cleaned_tokens stream) w); simpl; split.
    - intros (i & Ei). discriminate.
    - lia.
    - lia.
    - eauto. }
  exists t. split; [exact E|]. split; [exact K|]. split; [|split].
  - intros w I. apply K in I. unfold cleaned_tokens in I.
    apply filter_In in I. destruct I as (I & Ne).
    apply in_map_iff in I. destruct I as (token & <- & I).
    split; [|eauto].
    intros Eq. rewrite Eq in Ne. discriminate.
  - fold (entries t). rewrite <- (length_map fst (entries t)).
    fold (keys t). apply Permutation_length.
    apply NoDup_Permutation.
    + now apply ascending_NoDup.
    + apply NoDup_nodup.
    + intros w. rewrite K. symmetry. apply nodup_In.
  - fold (entries t).
    rewrite (map_snd_by_key
               (fun k => Z.of_nat (occurrences (cleaned_tokens stream) k))).
    + apply sum_occurrences.
      * now apply ascending_NoDup.
      * intros w I. now apply K.
    + intros k v I. apply (lookup_In_pair (entries t) k v B) in I.
      rewrite <- find_lookup, F in I by assumption.
      now apply stored_count_inv.
Qed.

(** ** [maxinfo_selector] with a [std::sort] that keeps its contract *)

Section SelectorProperties.
Context {Key Info : Type} `{KeyOrder Key} (info_gt : Info -> Info -> bool).
Hypothesis info_order : strict_weak_order info_gt.

(** X17: with any [std::sort] that keeps the contract, [maxinfo_selector]
    returns min(cnt, size) entries of the tree, in descending order of
    info and none with an info below that of an entry left out; on a
    search tree their keys are all different; with [cnt] at least the
    size every entry is returned. *)
Theorem maxinfo_selector_conforming
  (std_sort : forall A : Type, (A -> A -> bool) -> list A -> list A)
  (t : node Key Info) (cnt : nat) :
  std_sort_contract std_sort ->
  bst t ->
  let r := maxinfo_selector info_gt std_sort t cnt in
  List.length r = Nat.min cnt (List.length (to_vector t [])) /\
  sorted_by (by_info_desc info_gt) r /\
  (exists rest, Permutation (to_vector t []) (r ++ rest) /\
                forall x y, In x r -> In y rest ->
                            info_gt (snd y) (snd x) = false) /\
  NoDup (map fst r) /\
  ((List.length (to_vector t []) <= cnt)%nat ->
   Permutation (to_vector t []) r).
Proof.
  intros C B r.
  destruct (maxinfo_selector_spec info_gt std_sort info_order C t cnt)
    as (L & S & (rest & P & Lo) & All).
  fold r in L, S, P, Lo, All.
  split; [exact L|]. split; [exact S|]. split; [eauto|]. split; [|exact All].
  assert (N : NoDup (map fst (r ++ rest))).
  { apply (Permutation_NoDup (Permutation_map fst P)).
    now apply ascending_NoDup. }
  rewrite map_app in N. now apply NoDup_app_remove_r in N.
Qed.

(** X18: when no two entries of the tree have equivalent infos, the result
    of [maxinfo_selector] is the same with every [std::sort] that keeps
    the contract. *)
Theorem maxinfo_selector_without_ties
  (sort1 sort2 : forall A : Type, (A -> A -> bool) -> list A -> list A)
  (t : node Key Info) (cnt : nat) :
  std_sort_contract sort1 -> std_sort_contract sort2 ->
  (forall x y, In x (to_vector t []) -> In y (to_vector t []) ->
               info_gt (snd x) (snd y) = false ->
               info_gt (snd y) (snd x) = false -> x = y) ->
  maxinfo_selector info_gt sort1 t cnt = maxinfo_selector info_gt sort2 t cnt.
Proof.
  intros C1 C2 T. unfold maxinfo_selector.
  pose proof (by_info_desc_order (Key := Key) info_gt info_order) as O.
  destruct (C1 _ (by_info_desc info_gt) (to_vector t []) O) as (P1 & S1).
  destruct (C2 _ (by_info_desc info_gt) (to_vector t []) O) as (P2 & S2).
  assert (E : sort1 _ (by_info_desc info_gt) (to_vector t []) =
              sort2 _ (by_info_desc info_gt) (to_vector t [])).
  { apply (sorted_by_unique (by_info_desc info_gt)); auto.
    - intros x y Ix Iy. apply T.
      + now apply (Permutation_in _ (Permutation_sym P1)).
      + now apply (Permutation_in _ (Permutation_sym P1)).
    - now rewrite <- P1. }
  now rewrite E.
Qed.

End SelectorProperties.

(** ** [size] and [empty] *)

(** X19: [size()] is the number of entries as long as that number is in
    the range of [int], and [empty()] holds exactly when [to_vector]
    yields nothing, which is then the same as [size()] being 0. *)
Theorem size_counts_entries {Key Info : Type} (t : node Key Info) :
  (empty t = true <-> to_vector t [] = []) /\
  (Z.of_nat (List.length (to_vector t [])) <= INT_MAX ->
   size t = Z.of_nat (List.length (to_vector t [])) /\
   (empty t = true <-> size t = 0)).
Proof.
  assert (E : empty t = true <-> to_vector t [] = []).
  { destruct t as [|k i l r h]; [simpl; tauto|].
    change (to_vector (Node k i l r h) []) with (entries (Node k i l r h)).
    rewrite entries_Node. simpl empty.
    split; [discriminate|]. intros C. now destruct (entries l). }
  split; [exact E|]. unfold INT_MAX. intros Le.
  assert (S : size t = Z.of_nat (List.length (to_vector t []))).
  { unfold size, static_cast_int. rewrite Z.mod_small; lia. }
  split; [exact S|]. rewrite E, S.
  destruct (to_vector t []); simpl; split; try discriminate; auto; lia.
Qed.

(** * Nodes on the free store *)

Section FreeStoreFacts.
Context {Key Info : Type}.

Local Abbreviation heap' := (heap Key Info).

Lemma load_store_same (m : heap') (a : nat) (c : option (cell Key Info)) :
  load (store m a c) a = c.
Proof.
  unfold load. revert m. induction a as [|a IH]; intros [|x m]; simpl.
  - now destruct c.
  - now destruct c.
  - apply (IH []).
  - apply IH.
Qed.

Lemma load_store_other (m : heap') (a b : nat) (c : option (cell Key Info)) :
  a <> b -> load (store m a c) b = load m b.
Proof.
  unfold load. revert m b.
  induction a as [|a IH]; intros [|x m] [|b] Ne; simpl; try congruence.
  - now destruct b.
  - rewrite (IH [] b) by congruence. now destruct b.
  - apply IH. congruence.
Qed.

Lemma load_bump_alloc (m : heap') : load m (bump_alloc m) = None.
Proof.
  unfold load, bump_alloc.
  now rewrite (proj2 (nth_error_None m (List.length m))) by lia.
Qed.

(** A tree stands on live nodes only. *)
Lemma tree_at_live (m : heap') (t : node Key Info) (p : ptr) nodes :
  tree_at m t p nodes -> forall a, In a nodes -> load m a <> None.
Proof.
  revert p nodes. induction t as [|k i l IHl r IHr h]; intros p nodes T a I.
  - destruct T as (_ & ->). contradiction.
  - destruct T as (a0 & pl & pr & nl & nr & -> & L & Tl & Tr & ->).
    destruct I as [<-|I]; [congruence|].
    apply in_app_or in I. destruct I as [I|I]; eauto.
Qed.

(** A tree stays where it stands as long as its nodes are left alone. *)
Lemma tree_at_frame (m m' : heap') (t : node Key Info) (p : ptr) nodes :
  tree_at m t p nodes ->
  (forall a, In a nodes -> load m' a = load m a) ->
  tree_at m' t p nodes.
Proof.
  revert p nodes. induction t as [|k i l IHl r IHr h]; intros p nodes T F.
  - exact T.
  - destruct T as (a & pl & pr & nl & nr & -> & L & Tl & Tr & ->).
    exists a, pl, pr, nl, nr. split; [reflexivity|].
    split; [rewrite F; [exact L|now left]|].
    split; [|split; [|reflexivity]].
    + apply IHl with (1 := Tl). intros x I. apply F. right.
      apply in_or_app. now left.
    + apply IHr with (1 := Tr). intros x I. apply F. right.
      apply in_or_app. now right.
Qed.

(** The pointer and the store determine the tree and its nodes. *)
Lemma tree_at_unique (m : heap') (t1 t2 : node Key Info) (p : ptr) n1 n2 :
  tree_at m t1 p n1 -> tree_at m t2 p n2 -> t1 = t2 /\ n1 = n2.
Proof.
  revert t2 p n1 n2.
  induction t1 as [|k i l IHl r IHr h]; intros [|k' i' l' r' h'] p n1 n2 T1 T2.
  - destruct T1 as (_ & ->), T2 as (_ & ->). auto.
  - destruct T1 as (-> & _), T2 as (a & ? & ? & ? & ? & E & _). discriminate.
  - destruct T2 as (-> & _), T1 as (a & ? & ? & ? & ? & E & _). discriminate.
  - destruct T1 as (a & pl & pr & nl & nr & -> & L & Tl & Tr & ->).
    destruct T2 as (a' & pl' & pr' & nl' & nr' & E & L' & Tl' & Tr' & ->).
    injection E as <-. rewrite L in L'. injection L' as <- <- <- <- <-.
    destruct (IHl _ _ _ _ Tl Tl') as (<- & <-).
    destruct (IHr _ _ _ _ Tr Tr') as (<- & <-). auto.
Qed.

End FreeStoreFacts.

Section CloneFacts.
Context {Key Info : Type}.

Variable alloc : heap Key Info -> nat.
Hypothesis alloc_fresh : forall m, load m (alloc m) = None.

Lemma clone_spec (t : node Key Info) :
  forall levels m p nodes,
    tree_at m t p nodes -> (depth t < levels)%nat ->
    exists m' p' nodes',
      clone alloc levels m p = Some (m', p') /\
      tree_at m' t p' nodes' /\ NoDup nodes' /\
      (forall a, In a nodes' -> load m a = None) /\
      (forall a, ~ In a nodes' -> load m' a = load m a).
Proof.
  induction t as [|k i l IHl r IHr h]; intros levels m p nodes T D.
  - destruct T as (-> & ->). destruct levels; [simpl in D; lia|].
    exists m, None, []. simpl.
    split; [reflexivity|]. split; [auto|]. split; [constructor|].
    split; [contradiction|reflexivity].
  - destruct T as (a & pl & pr & nl & nr & -> & L & Tl & Tr & ->).
    destruct levels as [|levels]; [lia|]. simpl in D.
    (* the new node *)
    assert (Fn : load m (alloc m) = None) by apply alloc_fresh.
    assert (Na : alloc m <> a) by congruence.
    cbn [clone]. rewrite L. cbn [bind cell_key cell_info].
    set (n' := alloc m) in *.
    set (m1 := store m n' (Some (mk_cell k i None None 1))).
    assert (O1 : forall x, x <> n' -> load m1 x = load m x).
    { intros x Nx. apply load_store_other. congruence. }
    assert (L1 : load m1 n' = Some (mk_cell k i None None 1))
      by apply load_store_same.
    rewrite (O1 a), L by congruence. cbn [bind cell_left].
    (* the copy of the left subtree *)
    assert (Tl1 : tree_at m1 l pl nl).
    { apply tree_at_frame with (1 := Tl). intros x I. apply O1.
      intros ->. now apply (tree_at_live _ _ _ _ Tl n'). }
    destruct (IHl levels m1 pl nl Tl1)
      as (m2 & pl' & nl' & -> & Tl2 & N2 & F2 & O2); [lia|].
    cbn [bind fst snd].
    assert (In2 : ~ In n' nl') by (intros I; apply F2 in I; congruence).
    assert (Ia2 : ~ In a nl').
    { intros I. apply F2 in I. rewrite O1, L in I by congruence.
      discriminate. }
    unfold set_left. rewrite (O2 n' In2), L1.
    cbn [bind cell_key cell_info cell_right cell_height].
    set (m2' := store m2 n' (Some (mk_cell k i pl' None 1))).
    assert (O2' : forall x, x <> n' -> load m2' x = load m2 x).
    { intros x Nx. apply load_store_other. congruence. }
    assert (L2' : load m2' n' = Some (mk_cell k i pl' None 1))
      by apply load_store_same.
    rewrite (O2' a), (O2 a Ia2), (O1 a), L by congruence.
    cbn [bind cell_right].
    (* the copy of the right subtree *)
    assert (Tr2 : tree_at m2' r pr nr).
    { apply tree_at_frame with (1 := Tr). intros x I.
      assert (Lx : load m x <> None) by now apply (tree_at_live _ _ _ _ Tr).
      assert (Nx : x <> n') by congruence.
      rewrite O2', O2, O1; auto.
      intros I'. apply F2 in I'. rewrite O1 in I'; congruence. }
    destruct (IHr levels m2' pr nr Tr2)
      as (m3 & pr' & nr' & -> & Tr3 & N3 & F3 & O3); [lia|].
    cbn [bind fst snd].
    assert (In3 : ~ In n' nr') by (intros I; apply F3 in I; congruence).
    assert (Ia3 : ~ In a nr').
    { intros I. apply F3 in I.
      rewrite O2', (O2 a Ia2), O1, L in I by congruence. discriminate. }
    unfold set_right. rewrite (O3 n' In3), L2'.
    cbn [bind cell_key cell_info cell_left cell_height].
    set (m3' := store m3 n' (Some (mk_cell k i pl' pr' 1))).
    assert (O3' : forall x, x <> n' -> load m3' x = load m3 x).
    { intros x Nx. apply load_store_other. congruence. }
    assert (L3' : load m3' n' = Some (mk_cell k i pl' pr' 1))
      by apply load_store_same.
    rewrite (O3' a), (O3 a Ia3), (O2' a), (O2 a Ia2), (O1 a), L by congruence.
    cbn [bind cell_height].
    unfold set_height. rewrite L3'.
    cbn [bind cell_key cell_info cell_left cell_right].
    set (m4 := store m3' n' (Some (mk_cell k i pl' pr' h))).
    assert (O4 : forall x, x <> n' -> load m4 x = load m3' x).
    { intros x Nx. apply load_store_other. congruence. }
    (* the nodes of the two copies are different *)
    assert (D23 : forall x, In x nl' -> ~ In x nr').
    { intros x I I'. apply F3 in I'.
      assert (Nx : x <> n') by congruence.
      rewrite O2' in I' by assumption.
      now apply (tree_at_live _ _ _ _ Tl2 x). }
    exists m4, (Some n'), (n' :: nl' ++ nr').
    split; [reflexivity|]. split; [|split; [|split]].
    + exists n', pl', pr', nl', nr'. split; [reflexivity|].
      split; [apply load_store_same|].
      split; [|split; [|reflexivity]].
      * apply tree_at_frame with (1 := Tl2). intros x I.
        assert (Nx : x <> n') by congruence.
        rewrite O4, O3', O3, O2'; auto.
      * apply tree_at_frame with (1 := Tr3). intros x I.
        assert (Nx : x <> n') by congruence.
        rewrite O4, O3'; auto.
    + constructor.
      * intros I. apply in_app_or in I. tauto.
      * apply NoDup_app; auto.
    + intros x [<-|I]; [exact Fn|].
      apply in_app_or in I. destruct I as [I|I].
      * assert (Nx : x <> n') by congruence.
        rewrite <- O1 by assumption. now apply F2.
      * assert (Nx : x <> n') by congruence.
        pose proof (F3 x I) as Fx. rewrite O2' in Fx by assumption.
        rewrite <- O1 by assumption. rewrite <- O2; [exact Fx|].
        intros I'. now apply (tree_at_live _ _ _ _ Tl2 x).
    + intros x N.
      assert (Nx : x <> n') by (intros ->; apply N; now left).
      assert (Nl : ~ In x nl')
        by (intros I; apply N; right; apply in_or_app; now left).
      assert (Nr : ~ In x nr')
        by (intros I; apply N; right; apply in_or_app; now right).
      rewrite O4, O3', O3, O2', O2, O1; auto.
Qed.

End CloneFacts.

Section ClearFacts.
Context {Key Info : Type}.

Lemma clear_spec (t : node Key Info) :
  forall levels (m : heap Key Info) p nodes,
    tree_at m t p nodes -> NoDup nodes -> (depth t < levels)%nat ->
    exists m',
      clear levels m p = Some m' /\
      (forall a, In a nodes -> load m' a = None) /\
      (forall a, ~ In a nodes -> load m' a = load m a).
Proof.
  induction t as [|k i l IHl r IHr h]; intros levels m p nodes T N D.
  - destruct T as (-> & ->). destruct levels; [simpl in D; lia|].
    exists m. simpl. split; [reflexivity|]. split; [contradiction|reflexivity].
  - destruct T as (a & pl & pr & nl & nr & -> & L & Tl & Tr & ->).
    destruct levels as [|levels]; [lia|]. simpl in D.
    inversion N as [|? ? Na N']; subst.
    assert (Nal : ~ In a nl) by (intros I; apply Na, in_or_app; now left).
    assert (Nar : ~ In a nr) by (intros I; apply Na, in_or_app; now right).
    pose proof (NoDup_app_remove_r _ _ N') as Nl.
    pose proof (NoDup_app_remove_l _ _ N') as Nr.
    assert (Dlr : forall x, In x nl -> ~ In x nr).
    { intros x Il Ir. revert N' Il Ir. clear. induction nl as [|y nl IH].
      - contradiction.
      - simpl. intros N' [->|Il] Ir; inversion N' as [|? ? Ny Nn]; subst.
        + apply Ny, in_or_app. now right.
        + auto. }
    cbn [clear]. rewrite L. cbn [bind cell_left].
    destruct (IHl levels m pl nl Tl Nl) as (m1 & -> & F1 & O1); [lia|].
    cbn [bind]. rewrite (O1 a Nal), L. cbn [bind cell_right].
    assert (Tr1 : tree_at m1 r pr nr).
    { apply tree_at_frame with (1 := Tr). intros x I. apply O1.
      intros I'. now apply (Dlr x). }
    destruct (IHr levels m1 pr nr Tr1 Nr) as (m2 & -> & F2 & O2); [lia|].
    cbn [bind]. unfold delete. rewrite (O2 a Nar), (O1 a Nal), L.
    eexists. split; [reflexivity|]. split.
    + intros x [<-|I]; [apply load_store_same|].
      assert (Nx : a <> x) by (intros ->; apply Na; exact I).
      rewrite load_store_other by assumption.
      apply in_app_or in I. destruct I as [I|I].
      * rewrite O2 by now apply Dlr. now apply F1.
      * now apply F2.
    + intros x Nx.
      assert (Nxa : a <> x) by (intros ->; apply Nx; now left).
      rewrite load_store_other, O2, O1; auto.
      * intros I. apply Nx. right. apply in_or_app. now left.
      * intros I. apply Nx. right. apply in_or_app. now right.
Qed.

End ClearFacts.

Section Ownership.
Context {Key Info : Type}.

Variable alloc : heap Key Info -> nat.
Hypothesis alloc_fresh : forall m, load m (alloc m) = None.

Lemma set_root_same (roots : nat -> ptr) (o : nat) (p : ptr) :
  set_root roots o p o = p.
Proof. unfold set_root. now rewrite Nat.eqb_refl. Qed.

Lemma set_root_other (roots : nat -> ptr) (o o' : nat) (p : ptr) :
  o' <> o -> set_root roots o p o' = roots o'.
Proof.
  intros Ne. unfold set_root.
  now rewrite (proj2 (Nat.eqb_neq o' o) Ne).
Qed.

(** X20: the copy constructor gives the new object a tree equal to the
    source's, node for node with the same keys, infos and heights, on
    nodes of its own that were free before and are all different; the
    source still stands on its nodes, nothing else in the store has
    changed, and no other object has a new root. *)
Theorem copy_construct_copies (levels : nat) (m : heap Key Info)
  (roots : nat -> ptr) (this src : nat) (t : node Key Info)
  (nodes : list nat) :
  tree_at m t (roots src) nodes -> (depth t < levels)%nat ->
  exists m' roots' nodes',
    copy_construct alloc levels m roots this src = Some (m', roots') /\
    tree_at m' t (roots' this) nodes' /\
    NoDup nodes' /\
    (forall a, In a nodes' -> load m a = None /\ ~ In a nodes) /\
    tree_at m' t (roots src) nodes /\
    (forall a, ~ In a nodes' -> load m' a = load m a) /\
    (forall o, o <> this -> roots' o = roots o).
Proof.
  intros T D.
  destruct (clone_spec alloc alloc_fresh t levels m (roots src) nodes T D)
    as (m' & p' & nodes' & E & T' & N & F & O).
  assert (Dis : forall a, In a nodes' -> ~ In a nodes).
  { intros a I I'. apply F in I. now apply (tree_at_live _ _ _ _ T a). }
  exists m', (set_root roots this p'), nodes'.
  unfold copy_construct. rewrite E. cbn [bind fst snd].
  split; [reflexivity|]. rewrite set_root_same.
  split; [exact T'|]. split; [exact N|]. split; [auto|].
  split; [|split; [exact O|]].
  - apply tree_at_frame with (1 := T). intros a I. apply O.
    intros I'. now apply (Dis a).
  - intros o Ne. now apply set_root_other.
Qed.

(** X21: [clear()] on a tree whose nodes are all different deletes every
    node of the tree once, touches no other node, and leaves the object
    with a null root; the destructor does the same to the store.  A
    second [clear] of the old root, as an object sharing the nodes would
    run it, is undefined. *)
Theorem clear_frees_nodes (levels : nat) (m : heap Key Info)
  (roots : nat -> ptr) (this : nat) (t : node Key Info) (nodes : list nat) :
  tree_at m t (roots this) nodes -> NoDup nodes -> (depth t < levels)%nat ->
  exists m' roots',
    clear_tree levels m roots this = Some (m', roots') /\
    destruct_tree levels m roots this = Some m' /\
    roots' this = None /\
    (forall a, In a nodes -> load m' a = None) /\
    (forall a, ~ In a nodes -> load m' a = load m a) /\
    (t <> nullptr -> clear levels m' (roots this) = None).
Proof.
  intros T N D.
  destruct (clear_spec t levels m (roots this) nodes T N D) as (m' & E & F & O).
  exists m', (set_root roots this None).
  unfold clear_tree, destruct_tree. rewrite E. cbn [bind].
  split; [reflexivity|]. split; [reflexivity|].
  split; [apply set_root_same|]. split; [exact F|]. split; [exact O|].
  intros Ne. destruct t as [|k i l r h]; [congruence|].
  destruct T as (a & pl & pr & nl & nr & -> & _ & _ & _ & ->).
  destruct levels as [|levels]; [lia|].
  cbn [clear]. rewrite (F a) by now left. reflexivity.
Qed.

(** X22: an assignment between two different objects, each standing on
    nodes of its own, deletes the nodes of the target and gives it a copy
    of the source's tree on nodes apart from the source's; the source
    still stands on its nodes, and nothing else in the store has changed.
    An assignment of an object to itself changes nothing. *)
Theorem operator_assign_copies (levels : nat) (m : heap Key Info)
  (roots : nat -> ptr) (this src : nat) (t_this t_src : node Key Info)
  (n_this n_src : list nat) :
  this <> src ->
  tree_at m t_this (roots this) n_this -> NoDup n_this ->
  tree_at m t_src (roots src) n_src ->
  (forall a, In a n_this -> ~ In a n_src) ->
  (depth t_this < levels)%nat -> (depth t_src < levels)%nat ->
  (exists m' roots' nodes',
      operator_assign alloc levels m roots this src = Some (m', roots') /\
      tree_at m' t_src (roots' this) nodes' /\
      NoDup nodes' /\
      (forall a, In a nodes' -> ~ In a n_src) /\
      roots' src = roots src /\
      tree_at m' t_src (roots src) n_src /\
      (forall a, In a n_this -> ~ In a nodes' -> load m' a = None) /\
      (forall a, ~ In a n_this -> ~ In a nodes' -> load m' a = load m a)) /\
  operator_assign alloc levels m roots src src = Some (m, roots).
Proof.
  intros Ne Tt Nt Ts Dis Dt Ds. split.
  - destruct (clear_spec t_this levels m (roots this) n_this Tt Nt Dt)
      as (m1 & E1 & F1 & O1).
    assert (Ts1 : tree_at m1 t_src (roots src) n_src).
    { apply tree_at_frame with (1 := Ts). intros a I. apply O1.
      intros I'. now apply (Dis a). }
    destruct (clone_spec alloc alloc_fresh t_src levels m1 (roots src) n_src
                Ts1 Ds) as (m2 & p' & nodes' & E2 & T2 & N2 & F2 & O2).
    assert (Dis' : forall a, In a nodes' -> ~ In a n_src).
    { intros a I I'. apply F2 in I.
      now apply (tree_at_live _ _ _ _ Ts1 a). }
    exists m2, (set_root (set_root roots this None) this p'), nodes'.
    unfold operator_assign, clear_tree.
    rewrite (proj2 (Nat.eqb_neq this src) Ne). cbn [negb].
    rewrite E1. cbn [bind fst snd].
    rewrite (set_root_other roots this src None) by congruence.
    rewrite E2. cbn [bind fst snd].
    split; [reflexivity|]. rewrite set_root_same.
    split; [exact T2|]. split; [exact N2|]. split; [exact Dis'|].
    split; [|split; [|split]].
    + rewrite !set_root_other by congruence. reflexivity.
    + apply tree_at_frame with (1 := Ts1). intros a I. apply O2.
      intros I'. now apply (Dis' a).
    + intros a I N. rewrite O2 by assumption. now apply F1.
    + intros a N N'. rewrite O2, O1 by assumption. reflexivity.
  - unfold operator_assign. now rewrite Nat.eqb_refl.
Qed.

(** X23: after a copy construction either object can be destroyed without
    harm to the other: with the source destroyed the copy still stands on
    its nodes, and with the copy destroyed every address of the store
    holds what it held before the copy was made. *)
Theorem copy_then_destroy (levels : nat) (m : heap Key Info)
  (roots : nat -> ptr) (this src : nat) (t : node Key Info)
  (nodes : list nat) :
  this <> src ->
  tree_at m t (roots src) nodes -> NoDup nodes -> (depth t < levels)%nat ->
  exists m1 roots1 nodes',
    copy_construct alloc levels m roots this src = Some (m1, roots1) /\
    (exists m2, destruct_tree levels m1 roots1 src = Some m2 /\
                tree_at m2 t (roots1 this) nodes') /\
    (exists m2, destruct_tree levels m1 roots1 this = Some m2 /\
                forall a, load m2 a = load m a).
Proof.
  intros Ne T N D.
  destruct (clone_spec alloc alloc_fresh t levels m (roots src) nodes T D)
    as (m1 & p' & nodes' & E & T' & N' & F & O).
  assert (Dis : forall a, In a nodes' -> ~ In a nodes).
  { intros a I I'. apply F in I. now apply (tree_at_live _ _ _ _ T a). }
  assert (T1 : tree_at m1 t (roots src) nodes).
  { apply tree_at_frame with (1 := T). intros a I. apply O.
    intros I'. now apply (Dis a). }
  exists m1, (set_root roots this p'), nodes'.
  unfold copy_construct, destruct_tree. rewrite E. cbn [bind fst snd].
  split; [reflexivity|].
  rewrite set_root_same, (set_root_other roots this src p') by congruence.
  split.
  - destruct (clear_spec t levels m1 (roots src) nodes T1 N D)
      as (m2 & -> & F2 & O2).
    exists m2. split; [reflexivity|].
    apply tree_at_frame with (1 := T'). intros a I. apply O2.
    intros I'. now apply (Dis a).
  - destruct (clear_spec t levels m1 p' nodes' T' N' D) as (m2 & -> & F2 & O2).
    exists m2. split; [reflexivity|]. intros a.
    destruct (in_dec Nat.eq_dec a nodes') as [I|NI].
    + rewrite F2 by assumption. symmetry. now apply F.
    + rewrite O2, O by assumption. reflexivity.
Qed.

End Ownership.

(** * [print] *)

Section PrintFacts.
Context {Key Info : Type}.

Variable show_key : Key -> string.
Variable show_info : Info -> string.

Local Abbreviation lines :=
  (fold_right
     (fun (e : Z * (Key * Info)) (text : string) =>
        (print_line show_key show_info (fst e) (fst (snd e)) (snd (snd e))
         ++ text)%string)
     EmptyString).

Lemma lines_app (l1 l2 : list (Z * (Key * Info))) :
  lines (l1 ++ l2) = (lines l1 ++ lines l2)%string.
Proof.
  induction l1 as [|e l1 IH]; [reflexivity|]. simpl.
  now rewrite IH, string_app_assoc.
Qed.

(** X24: [print] appends to the output one line for every entry of the
    tree, from the largest key to the smallest, each indented by four
    spaces for every level that its node lies below the root, and writes
    nothing else. *)
Theorem print_lists_entries (n : node Key Info) (depth : Z) (cout : string) :
  print show_key show_info n depth cout =
    (cout ++ lines (rev (entries_at_depth n depth)))%string /\
  map snd (entries_at_depth n depth) = to_vector n [].
Proof.
  split.
  - revert depth cout. induction n as [|k i l IHl r IHr h]; intros depth cout.
    + simpl. now rewrite string_app_nil.
    + simpl print. rewrite IHl, IHr. simpl entries_at_depth.
      rewrite rev_app_distr. simpl rev. rewrite <- app_assoc, !lines_app.
      simpl. now rewrite !string_app_assoc.
  - fold (entries n). revert depth.
    induction n as [|k i l IHl r IHr h]; intros depth; [reflexivity|].
    simpl. rewrite entries_Node, map_app. simpl. now rewrite IHl, IHr.
Qed.

End PrintFacts.

(** * Instances of the further properties *)

Lemma insert_then_find_witness :
  avl rotated_tree /\ bst rotated_tree /\
  exists t' : node Z Z,
    insert rotated_tree 5 50 = Some t' /\ avl t' /\ bst t' /\
    (forall key',
        find t' key' = if key_eq key' 5 then Some 50
                       else find rotated_tree key') /\
    (~ In 5 (keys rotated_tree) ->
     List.length (to_vector t' []) =
       S (List.length (to_vector rotated_tree []))).
Proof.
  split; [exact rotated_tree_avl|]. split; [exact rotated_tree_bst|].
  exact (insert_then_find rotated_tree 5 50 rotated_tree_avl rotated_tree_bst).
Defined.

Lemma remove_contents_witness :
  avl rotated_tree /\ bst rotated_tree /\
  exists t' : node Z Z,
    remove rotated_tree 2 = Some t' /\ avl t' /\ bst t' /\
    to_vector t' [] =
      filter (fun p => negb (key_eq 2 (fst p))) (to_vector rotated_tree []) /\
    (In 2 (keys rotated_tree) ->
     S (List.length (to_vector t' [])) =
       List.length (to_vector rotated_tree [])).
Proof.
  split; [exact rotated_tree_avl|]. split; [exact rotated_tree_bst|].
  exact (remove_contents rotated_tree 2 rotated_tree_avl rotated_tree_bst).
Defined.

Lemma insert_remove_round_trip_witness :
  avl rotated_tree /\ bst rotated_tree /\ ~ In 5 (keys rotated_tree) /\
  exists t1 t2 : node Z Z,
    insert rotated_tree 5 50 = Some t1 /\
    remove t1 5 = Some t2 /\
    to_vector t2 [] = to_vector rotated_tree [].
Proof.
  split; [exact rotated_tree_avl|]. split; [exact rotated_tree_bst|].
  split; [exact rotated_tree_without_5|].
  exact (insert_remove_round_trip rotated_tree 5 50
           rotated_tree_avl rotated_tree_bst rotated_tree_without_5).
Defined.

Lemma four_is_not_five : 4 <> 5.
Proof. discriminate. Qed.

Lemma insert_insert_commute_witness :
  avl rotated_tree /\ bst rotated_tree /\ 4 <> 5 /\
  exists a a' b b' : node Z Z,
    insert rotated_tree 4 40 = Some a /\ insert a 5 50 = Some a' /\
    insert rotated_tree 5 50 = Some b /\ insert b 4 40 = Some b' /\
    to_vector a' [] = to_vector b' [].
Proof.
  split; [exact rotated_tree_avl|]. split; [exact rotated_tree_bst|].
  split; [exact four_is_not_five|].
  exact (insert_insert_commute rotated_tree 4 5 40 50
           rotated_tree_avl rotated_tree_bst four_is_not_five).
Defined.

Lemma search_agrees_with_to_vector_witness :
  bst rotated_tree /\
  (fst (search rotated_tree 3 0) = (true, 3) <->
   In (3, 3) (to_vector rotated_tree [])).
Proof.
  split; [exact rotated_tree_bst|].
  exact (search_agrees_with_to_vector rotated_tree 3 3 0 rotated_tree_bst).
Defined.

Lemma min_node_smallest_witness :
  bst rotated_tree /\
  (min_node rotated_tree = None <-> rotated_tree = nullptr) /\
  (forall k i,
      min_node rotated_tree = Some (k, i) ->
      (exists rest, to_vector rotated_tree [] = (k, i) :: rest) /\
      (forall k', In k' (keys rotated_tree) -> k' <> k -> key_lt k k' = true)).
Proof.
  split; [exact rotated_tree_bst|].
  exact (min_node_smallest rotated_tree rotated_tree_bst).
Defined.

Lemma unrotated_tree_rotates :
  rotate_right unrotated_tree = Some rotated_tree.
Proof. reflexivity. Qed.

Lemma rotations_are_inverse_witness :
  rotate_right unrotated_tree = Some rotated_tree /\
  to_vector rotated_tree [] = to_vector unrotated_tree [] /\
  (heights_cached unrotated_tree ->
   heights_cached rotated_tree /\ rotate_left rotated_tree = Some unrotated_tree).
Proof.
  split; [exact unrotated_tree_rotates|].
  exact (proj1 (rotations_are_inverse unrotated_tree rotated_tree)
           unrotated_tree_rotates).
Defined.

Lemma left_heavy_subtree_avl :
  avl (Node 2 2 (Node 1 1 nullptr nullptr 1) (@nullptr Z Z) 2).
Proof. simpl. repeat split; lia. Qed.

Lemma left_heavy_by_two :
  -2 <= height (Node 2 2 (Node 1 1 nullptr nullptr 1) (@nullptr Z Z) 2)
        - height (@nullptr Z Z) <= 2.
Proof. simpl. lia. Qed.

Lemma rebalance_restores_balance_witness :
  avl (Node 2 2 (Node 1 1 nullptr nullptr 1) (@nullptr Z Z) 2) /\
  avl (@nullptr Z Z) /\
  -2 <= height (Node 2 2 (Node 1 1 nullptr nullptr 1) (@nullptr Z Z) 2)
        - height (@nullptr Z Z) <= 2 /\
  exists t : node Z Z,
    rebalance (Node 3 3 (Node 2 2 (Node 1 1 nullptr nullptr 1) nullptr 2)
                 nullptr 2) = Some t /\
    avl t /\
    to_vector t [] =
      to_vector (Node 2 2 (Node 1 1 nullptr nullptr 1) (@nullptr Z Z) 2) []
      ++ (3, 3) :: to_vector (@nullptr Z Z) [] /\
    Z.max (height (Node 2 2 (Node 1 1 nullptr nullptr 1) (@nullptr Z Z) 2))
          (height (@nullptr Z Z)) <= height t
      <= Z.max (height (Node 2 2 (Node 1 1 nullptr nullptr 1) (@nullptr Z Z) 2))
               (height (@nullptr Z Z)) + 1 /\
    rebalance t = Some t.
Proof.
  split; [exact left_heavy_subtree_avl|]. split; [exact I|].
  split; [exact left_heavy_by_two|].
  exact (rebalance_restores_balance 3 3
           (Node 2 2 (Node 1 1 nullptr nullptr 1) nullptr 2) nullptr 2
           left_heavy_subtree_avl I left_heavy_by_two).
Defined.

Lemma reachable_height_logarithmic_witness :
  exists t : node Z Z,
    run [op_insert 3 3; op_insert 2 2; op_insert 1 1; op_remove 3] nullptr
      = Some t /\
    height t = Z.of_nat (depth t) /\
    2 ^ (height t / 2) <= Z.of_nat (List.length (to_vector t [])) + 1.
Proof.
  exact (reachable_height_logarithmic
           [op_insert 3 3; op_insert 2 2; op_insert 1 1; op_remove 3]).
Defined.

Lemma height_changes_by_one_witness :
  avl rotated_tree /\
  (exists t', insert rotated_tree 5 50 = Some t' /\
              height rotated_tree <= height t' <= height rotated_tree + 1) /\
  (exists t', remove rotated_tree 5 = Some t' /\
              height rotated_tree - 1 <= height t' <= height rotated_tree).
Proof.
  split; [exact rotated_tree_avl|].
  exact (height_changes_by_one rotated_tree 5 50 rotated_tree_avl).
Defined.

Lemma rotated_tree_holds_3 : find rotated_tree 3 = Some 3.
Proof. reflexivity. Qed.

Lemma insert_same_entry_witness :
  avl rotated_tree /\ find rotated_tree 3 = Some 3 /\
  insert rotated_tree 3 3 = Some rotated_tree.
Proof.
  split; [exact rotated_tree_avl|]. split; [exact rotated_tree_holds_3|].
  exact (insert_same_entry rotated_tree 3 3
           rotated_tree_avl rotated_tree_holds_3).
Defined.

Lemma index_assign_like_insert_witness :
  avl rotated_tree /\ bst rotated_tree /\
  exists (t1 : node Z Z) (i : Z) (t2 : node Z Z),
    index 0 rotated_tree 5 = Some (t1, i) /\
    insert rotated_tree 5 9 = Some t2 /\
    to_vector (assign t1 5 9) [] = to_vector t2 [].
Proof.
  split; [exact rotated_tree_avl|]. split; [exact rotated_tree_bst|].
  exact (index_assign_like_insert 0 rotated_tree 5 9
           rotated_tree_avl rotated_tree_bst).
Defined.

Lemma count_words_keys_witness :
  (forall w,
      Z.of_nat (occurrences (cleaned_tokens "Hello HELLO hello") w) <= INT_MAX) /\
  exists t,
    count_words "Hello HELLO hello" = Some t /\
    (forall w, In w (keys t) <-> In w (cleaned_tokens "Hello HELLO hello")) /\
    (forall w, In w (keys t) ->
               w <> EmptyString /\
               exists token,
                 In token (tokens "Hello HELLO hello") /\ w = clean token) /\
    List.length (to_vector t []) =
      List.length (nodup string_dec (cleaned_tokens "Hello HELLO hello")) /\
    fold_right Z.add 0 (map snd (to_vector t [])) =
      Z.of_nat (List.length (cleaned_tokens "Hello HELLO hello")).
Proof.
  split; [exact hello_counts_in_range|].
  exact (count_words_keys "Hello HELLO hello"%string hello_counts_in_range).
Defined.

Lemma maxinfo_selector_conforming_witness :
  strict_weak_order Z.gtb /\
  std_sort_contract stable_insertion_sort /\
  bst rotated_tree /\
  List.length (maxinfo_selector Z.gtb stable_insertion_sort rotated_tree 2) =
    Nat.min 2 (List.length (to_vector rotated_tree [])) /\
  sorted_by (by_info_desc Z.gtb)
    (maxinfo_selector Z.gtb stable_insertion_sort rotated_tree 2) /\
  (exists rest,
      Permutation (to_vector rotated_tree [])
        (maxinfo_selector Z.gtb stable_insertion_sort rotated_tree 2 ++ rest) /\
      forall x y,
        In x (maxinfo_selector Z.gtb stable_insertion_sort rotated_tree 2) ->
        In y rest -> Z.gtb (snd y) (snd x) = false) /\
  NoDup (map fst (maxinfo_selector Z.gtb stable_insertion_sort rotated_tree 2)) /\
  ((List.length (to_vector rotated_tree []) <= 2)%nat ->
   Permutation (to_vector rotated_tree [])
     (maxinfo_selector Z.gtb stable_insertion_sort rotated_tree 2)).
Proof.
  split; [exact Z_gtb_order|].
  split; [exact stable_insertion_sort_contract|].
  split; [exact rotated_tree_bst|].
  exact (maxinfo_selector_conforming Z.gtb Z_gtb_order stable_insertion_sort
           rotated_tree 2 stable_insertion_sort_contract rotated_tree_bst).
Defined.

Lemma rotated_tree_without_ties (x y : Z * Z) :
  In x (to_vector rotated_tree []) -> In y (to_vector rotated_tree []) ->
  Z.gtb (snd x) (snd y) = false -> Z.gtb (snd y) (snd x) = false -> x = y.
Proof.
  simpl. intros Ix Iy.
  repeat (destruct Ix as [<-|Ix]; [|]); try contradiction;
    repeat (destruct Iy as [<-|Iy]; [|]); try contradiction;
    vm_compute; congruence.
Qed.

Lemma maxinfo_selector_without_ties_witness :
  strict_weak_order Z.gtb /\
  std_sort_contract stable_insertion_sort /\
  std_sort_contract reversing_insertion_sort /\
  (forall x y,
      In x (to_vector rotated_tree []) -> In y (to_vector rotated_tree []) ->
      Z.gtb (snd x) (snd y) = false -> Z.gtb (snd y) (snd x) = false ->
      x = y) /\
  maxinfo_selector Z.gtb stable_insertion_sort rotated_tree 2 =
  maxinfo_selector Z.gtb reversing_insertion_sort rotated_tree 2.
Proof.
  split; [exact Z_gtb_order|].
  split; [exact stable_insertion_sort_contract|].
  split; [exact reversing_insertion_sort_contract|].
  split; [exact rotated_tree_without_ties|].
  exact (maxinfo_selector_without_ties Z.gtb Z_gtb_order
           stable_insertion_sort reversing_insertion_sort rotated_tree 2
           stable_insertion_sort_contract reversing_insertion_sort_contract
           rotated_tree_without_ties).
Defined.

Lemma rotated_tree_size_in_range :
  Z.of_nat (List.length (to_vector rotated_tree [])) <= INT_MAX.
Proof. vm_compute. discriminate. Qed.

Lemma size_counts_entries_witness :
  Z.of_nat (List.length (to_vector rotated_tree [])) <= INT_MAX /\
  size rotated_tree = Z.of_nat (List.length (to_vector rotated_tree [])) /\
  (empty rotated_tree = true <-> size rotated_tree = 0).
Proof.
  split; [exact rotated_tree_size_in_range|].
  exact (proj2 (size_counts_entries rotated_tree) rotated_tree_size_in_range).
Defined.

Lemma rotated_store_tree :
  tree_at rotated_store rotated_tree (one_object 0) [0; 1; 2]%nat.
Proof.
  exists 0%nat, (Some 1%nat), (Some 2%nat), [1%nat], [2%nat].
  repeat split.
  - exists 1%nat, None, None, [], []. repeat split.
  - exists 2%nat, None, None, [], []. repeat split.
Qed.

Lemma rotated_store_nodes : NoDup [0; 1; 2]%nat.
Proof. repeat constructor; simpl; intuition discriminate. Qed.

Lemma rotated_tree_depth : (depth rotated_tree < 3)%nat.
Proof. simpl. lia. Qed.

Lemma one_is_not_zero : 1%nat <> 0%nat.
Proof. discriminate. Qed.

Lemma copy_construct_copies_witness :
  (forall m : heap Z Z, load m (bump_alloc m) = None) /\
  tree_at rotated_store rotated_tree (one_object 0) [0; 1; 2]%nat /\
  (depth rotated_tree < 3)%nat /\
  exists m' roots' nodes',
    copy_construct bump_alloc 3 rotated_store one_object 1 0
      = Some (m', roots') /\
    tree_at m' rotated_tree (roots' 1%nat) nodes' /\
    NoDup nodes' /\
    (forall a, In a nodes' ->
               load rotated_store a = None /\ ~ In a [0; 1; 2]%nat) /\
    tree_at m' rotated_tree (one_object 0) [0; 1; 2]%nat /\
    (forall a, ~ In a nodes' -> load m' a = load rotated_store a) /\
    (forall o, o <> 1%nat -> roots' o = one_object o).
Proof.
  split; [exact load_bump_alloc|]. split; [exact rotated_store_tree|].
  split; [exact rotated_tree_depth|].
  exact (copy_construct_copies bump_alloc load_bump_alloc 3 rotated_store
           one_object 1 0 rotated_tree [0; 1; 2]%nat
           rotated_store_tree rotated_tree_depth).
Defined.

Lemma clear_frees_nodes_witness :
  tree_at rotated_store rotated_tree (one_object 0) [0; 1; 2]%nat /\
  NoDup [0; 1; 2]%nat /\
  (depth rotated_tree < 3)%nat /\
  exists m' roots',
    clear_tree 3 rotated_store one_object 0 = Some (m', roots') /\
    destruct_tree 3 rotated_store one_object 0 = Some m' /\
    roots' 0%nat = None /\
    (forall a, In a [0; 1; 2]%nat -> load m' a = None) /\
    (forall a, ~ In a [0; 1; 2]%nat -> load m' a = load rotated_store a) /\
    (rotated_tree <> nullptr -> clear 3 m' (one_object 0) = None).
Proof.
  split; [exact rotated_store_tree|]. split; [exact rotated_store_nodes|].
  split; [exact rotated_tree_depth|].
  exact (clear_frees_nodes 3 rotated_store one_object 0 rotated_tree
           [0; 1; 2]%nat rotated_store_tree rotated_store_nodes
           rotated_tree_depth).
Defined.

Lemma two_trees_store_target :
  tree_at two_trees_store one_node_tree (two_objects 1) [3]%nat.
Proof. exists 3%nat, None, None, [], []. repeat split. Qed.

Lemma two_trees_store_source :
  tree_at two_trees_store rotated_tree (two_objects 0) [0; 1; 2]%nat.
Proof.
  exists 0%nat, (Some 1%nat), (Some 2%nat), [1%nat], [2%nat].
  repeat split.
  - exists 1%nat, None, None, [], []. repeat split.
  - exists 2%nat, None, None, [], []. repeat split.
Qed.

Lemma target_nodes : NoDup [3]%nat.
Proof. repeat constructor. simpl. tauto. Qed.

Lemma nothing_shared (a : nat) : In a [3]%nat -> ~ In a [0; 1; 2]%nat.
Proof. simpl. intros [<-|[]]. intuition discriminate. Qed.

Lemma target_depth : (depth one_node_tree < 3)%nat.
Proof. simpl. lia. Qed.

Lemma operator_assign_copies_witness :
  1%nat <> 0%nat /\
  tree_at two_trees_store one_node_tree (two_objects 1) [3]%nat /\
  NoDup [3]%nat /\
  tree_at two_trees_store rotated_tree (two_objects 0) [0; 1; 2]%nat /\
  (forall a, In a [3]%nat -> ~ In a [0; 1; 2]%nat) /\
  (depth one_node_tree < 3)%nat /\ (depth rotated_tree < 3)%nat /\
  (exists m' roots' nodes',
      operator_assign bump_alloc 3 two_trees_store two_objects 1 0
        = Some (m', roots') /\
      tree_at m' rotated_tree (roots' 1%nat) nodes' /\
      NoDup nodes' /\
      (forall a, In a nodes' -> ~ In a [0; 1; 2]%nat) /\
      roots' 0%nat = two_objects 0 /\
      tree_at m' rotated_tree (two_objects 0) [0; 1; 2]%nat /\
      (forall a, In a [3]%nat -> ~ In a nodes' -> load m' a = None) /\
      (forall a, ~ In a [3]%nat -> ~ In a nodes' ->
                 load m' a = load two_trees_store a)) /\
  operator_assign bump_alloc 3 two_trees_store two_objects 0 0
    = Some (two_trees_store, two_objects).
Proof.
  split; [exact one_is_not_zero|]. split; [exact two_trees_store_target|].
  split; [exact target_nodes|]. split; [exact two_trees_store_source|].
  split; [exact nothing_shared|]. split; [exact target_depth|].
  split; [exact rotated_tree_depth|].
  exact (operator_assign_copies bump_alloc load_bump_alloc 3 two_trees_store
           two_objects 1 0 one_node_tree rotated_tree [3]%nat [0; 1; 2]%nat
           one_is_not_zero two_trees_store_target target_nodes
           two_trees_store_source nothing_shared target_depth
           rotated_tree_depth).
Defined.

Lemma copy_then_destroy_witness :
  1%nat <> 0%nat /\
  tree_at rotated_store rotated_tree (one_object 0) [0; 1; 2]%nat /\
  NoDup [0; 1; 2]%nat /\
  (depth rotated_tree < 3)%nat /\
  exists m1 roots1 nodes',
    copy_construct bump_alloc 3 rotated_store one_object 1 0
      = Some (m1, roots1) /\
    (exists m2, destruct_tree 3 m1 roots1 0 = Some m2 /\
                tree_at m2 rotated_tree (roots1 1%nat) nodes') /\
    (exists m2, destruct_tree 3 m1 roots1 1 = Some m2 /\
                forall a, load m2 a = load rotated_store a).
Proof.
  split; [exact one_is_not_zero|]. split; [exact rotated_store_tree|].
  split; [exact rotated_store_nodes|]. split; [exact rotated_tree_depth|].
  exact (copy_then_destroy bump_alloc load_bump_alloc 3 rotated_store
           one_object 1 0 rotated_tree [0; 1; 2]%nat one_is_not_zero
           rotated_store_tree rotated_store_nodes rotated_tree_depth).
Defined.

(** * The tree as a sorted list of entries *)

Section Refinement.
Context {Key Info : Type} `{KeyOrder Key}.

Lemma run_entries (ops : list (operation Key Info)) (n : node Key Info) :
  avl n -> bst n ->
  exists t, run ops n = Some t /\
            entries t = fold_left apply_op_list ops (entries n).
Proof.
  revert n. induction ops as [|o ops IH]; intros n A B; simpl.
  - eauto.
  - destruct (apply_op_invariants n o A B) as (n' & E & A' & B').
    rewrite E. simpl.
    destruct (IH n' A' B') as (t & Et & Ent). exists t. split; [exact Et|].
    rewrite Ent. f_equal. destruct o as [key info|key]; simpl in *.
    + now apply insert_entries.
    + now apply remove_entries.
Qed.

(** X25: after every sequence of insertions and removals from the empty
    tree, [to_vector] yields what the same operations give on a plain list
    of entries kept in ascending key order, where an insertion replaces
    the info of a key that is there and a removal drops its entry. *)
Theorem run_refines_sorted_list (ops : list (operation Key Info)) :
  exists t : node Key Info,
    run ops nullptr = Some t /\
    to_vector t [] = fold_left apply_op_list ops [].
Proof.
  destruct (run_entries ops nullptr) as (t & E & Ent); try exact I.
  exists t. split; [exact E|exact Ent].
Qed.

End Refinement.

Lemma run_refines_sorted_list_witness :
  exists t : node Z Z,
    run [op_insert 10 10; op_insert 5 5; op_insert 15 15; op_insert 2 2;
         op_remove 2; op_remove 10] nullptr = Some t /\
    to_vector t [] =
      fold_left apply_op_list
        [op_insert 10 10; op_insert 5 5; op_insert 15 15; op_insert 2 2;
         op_remove 2; op_remove 10] [].
Proof.
  exact (run_refines_sorted_list
           [op_insert 10 10; op_insert 5 5; op_insert 15 15; op_insert 2 2;
            op_remove 2; op_remove 10]).
Defined.
